(** * go-ipfs: the IPNS republisher and the filesystem keystore

    A shallow embedding of [namesys/republisher] (the renewal scheduler)
    and of [keystore/keystore.go] (the filesystem key store), with the
    properties of the specification proved about them.

    Go values are modelled as follows.
    - [string], [peer.ID], [path.Path]: Rocq [string] (a sequence of bytes).
    - [[]byte]: [list Byte.byte].
    - [uint64], [time.Duration], [time.Time]: [Z].  No arithmetic is done on
      sequence numbers; durations are nanoseconds.
    - [error]: the inductive [error]; [nil] is [None].  The package-level
      sentinels ([errNoEntry], [ErrNoSuchKey], [ErrKeyExists]) are
      constructors of their own because Go compares them by identity.
    - [map[peer.ID]struct{}]: [gset ID].  The order in which a [range]
      statement visits the keys is not specified by Go, so the order of a
      pass is an argument of the model.
    - libraries outside the two packages (crypto, datastore, protobuf,
      routing, the operating system, the clock) are interfaces: type classes
      whose methods the code calls. *)

From Stdlib Require Import ZArith Lia List Ascii String.
From stdpp Require Import base strings list gmap.

Local Open Scope string_scope.
Local Open Scope Z_scope.

(** ** Basic Go types *)

Definition bytes := list Byte.byte.

#[export] Instance byte_eq_dec : EqDecision Byte.byte := Byte.byte_eq_dec.
#[export] Instance bytes_eq_dec : EqDecision bytes := list_eq_dec.

(** [peer.ID] is declared [type ID string]. *)
Definition ID := string.

(** [path.Path] is declared [type Path string]. *)
Definition Path := string.

(** ** Errors *)

(** Error numbers reported by the operating system. *)
Inductive errno := ENOENT | EEXIST | EACCES | EISDIR | ENOTDIR | EIO | ENOSPC.

(** Error values made by code outside the two packages: they can never be
    identical to one of the packages' own sentinels. *)
Inductive exterr :=
| ErrOS (op path : string) (e : errno)   (* *os.PathError *)
| ErrLib (msg : string).                 (* any other library error *)

Inductive error :=
| errNoEntry                             (* republisher: errors.New("no previous entry") *)
| ErrNoSuchKey                           (* keystore *)
| ErrKeyExists                           (* keystore *)
| Errorf (msg : string)                  (* a fresh fmt.Errorf value *)
| Ext (e : exterr).

#[export] Instance errno_eq_dec : EqDecision errno.
Proof. solve_decision. Defined.
#[export] Instance exterr_eq_dec : EqDecision exterr.
Proof. solve_decision. Defined.
#[export] Instance error_eq_dec : EqDecision error.
Proof. solve_decision. Defined.

(** [os.IsNotExist]. *)
Definition IsNotExist (e : exterr) : bool :=
  match e with
  | ErrOS _ _ ENOENT => true
  | _ => false
  end.

(** What a call of a library function gives back: [(v, nil)] or [(_, err)]. *)
Inductive libres (A : Type) :=
| LOk (a : A)
| LErr (e : exterr).
Arguments LOk {A} a.
Arguments LErr {A} e.

(** What a call of a function of the two packages gives back.  [Panic] is a
    run-time panic (a failed type assertion). *)
Inductive res (A : Type) :=
| Ok (a : A)
| Err (e : error)
| Panic.
Arguments Ok {A} a.
Arguments Err {A} e.
Arguments Panic {A}.

Definition lift {A} (x : libres A) : res A :=
  match x with
  | LOk a => Ok a
  | LErr e => Err (Ext e)
  end.

(** ** A state monad with early return

    [M S A] is a computation on a state [S] that returns a value, returns an
    error ([if err != nil { return err }]) or panics. *)

Definition M (S A : Type) := S -> res A * S.

Definition ret {S A} (a : A) : M S A := fun s => (Ok a, s).
Definition fail {S A} (e : error) : M S A := fun s => (Err e, s).
Definition bind {S A B} (m : M S A) (k : A -> M S B) : M S B :=
  fun s =>
    match m s with
    | (Ok a, s') => k a s'
    | (Err e, s') => (Err e, s')
    | (Panic, s') => (Panic, s')
    end.

Notation "x <- m ;; k" := (bind m (fun x => k))
  (at level 100, m at next level, right associativity).
Notation "m ;;; k" := (bind m (fun _ => k))
  (at level 100, right associativity).

(** ** Package [strings] *)

Module gostrings.

Fixpoint HasPrefix (s prefix : string) {struct prefix} : bool :=
  match prefix with
  | EmptyString => true
  | String c prefix' =>
      match s with
      | EmptyString => false
      | String d s' => if decide (c = d) then HasPrefix s' prefix' else false
      end
  end.

Fixpoint Contains (s substr : string) : bool :=
  HasPrefix s substr ||
  match s with
  | EmptyString => false
  | String _ s' => Contains s' substr
  end.

End gostrings.

(** ** Package [time] *)

Module time.

Definition Duration := Z.
Definition Time := Z.

Definition Nanosecond : Duration := 1.
Definition Microsecond : Duration := 1000 * Nanosecond.
Definition Millisecond : Duration := 1000 * Microsecond.
Definition Second : Duration := 1000 * Millisecond.
Definition Minute : Duration := 60 * Second.
Definition Hour : Duration := 60 * Minute.

(** [t.Add(d)]. *)
Definition Add (t : Time) (d : Duration) : Time := t + d.

End time.

(** ** The crypto and peer libraries *)

Class Crypto := {
  PrivKey : Type;
  (** [k.Bytes()] *)
  Bytes : PrivKey -> libres bytes;
  (** [ci.UnmarshalPrivateKey(data)] *)
  UnmarshalPrivateKey : bytes -> libres PrivKey;
  (** [peer.IDFromPrivateKey(sk)] *)
  IDFromPrivateKey : PrivKey -> libres ID;
}.

(** ** The operating system, as [keystore.go] uses it

    [FS] is the state of the file system.  Calls that only read take the
    state; calls that write give the new state back.  An open file is named
    by its path. *)

Class OS := {
  FS : Type;
  filepath_Join : string -> string -> string;
  os_Stat : string -> FS -> libres unit;
  os_Mkdir : string -> FS -> libres unit * FS;
  os_Create : string -> FS -> libres unit * FS;
  file_Write : string -> bytes -> FS -> libres unit * FS;
  file_Close : string -> FS -> FS;
  ioutil_ReadFile : string -> FS -> libres bytes;
  os_Remove : string -> FS -> libres unit * FS;
  os_Open : string -> FS -> libres unit;
  file_Readdirnames : string -> FS -> libres (list string);
}.

(** * Package [keystore] *)

Module keystore.

Section Keystore.
Context `{Crypto} `{OS}.

(** [type Keystore interface]: the methods act on the state [K] of the
    store. *)
Class Keystore (K : Type) := {
  Has : string -> M K bool;
  Put : string -> PrivKey -> M K unit;
  Get : string -> M K PrivKey;
  GetById : ID -> M K PrivKey;
  Delete : string -> M K unit;
  List : M K (list string);
}.

Definition validateName (name : string) : option error :=
  if decide (name = "") then
    Some (Errorf "key names must be at least one character")
  else if gostrings.Contains name "/" then
    Some (Errorf "key names may not contain slashes")
  else if gostrings.HasPrefix name "." then
    Some (Errorf "key names may not begin with a period")
  else None.

(** The calls the store makes to the operating system, in order. *)
Inductive syscall :=
| SysStat (p : string)
| SysMkdir (p : string)
| SysCreate (p : string)
| SysWrite (p : string) (b : bytes)
| SysClose (p : string)
| SysReadFile (p : string)
| SysRemove (p : string)
| SysOpen (p : string)
| SysReaddirnames (p : string).

(** The storage under the key store: the file system and the calls made. *)
Record storage := { fs : FS; calls : list syscall }.

Definition sys_read {A} (c : syscall) (f : FS -> libres A) : M storage (libres A) :=
  fun s => (Ok (f (fs s)), {| fs := fs s; calls := calls s ++ [c] |}).

Definition sys_write {A} (c : syscall) (f : FS -> libres A * FS) : M storage (libres A) :=
  fun s => (Ok (f (fs s)).1, {| fs := (f (fs s)).2; calls := calls s ++ [c] |}).

(** A library call that touches no storage. *)
Definition pure_call {S A} (x : libres A) : M S A := fun s => (lift x, s).

Record FSKeystore := { dir : string }.

Definition NewFSKeystore (d : string) : M storage FSKeystore :=
  st <- sys_read (SysStat d) (os_Stat d);;
  match st with
  | LErr err =>
      if negb (IsNotExist err) then fail (Ext err)
      else
        mk <- sys_write (SysMkdir d) (os_Mkdir d);;
        match mk with
        | LErr err => fail (Ext err)
        | LOk _ => ret {| dir := d |}
        end
  | LOk _ => ret {| dir := d |}
  end.

Definition FSKeystore_Has (ks : FSKeystore) (name : string) : M storage bool :=
  let kp := filepath_Join (dir ks) name in
  st <- sys_read (SysStat kp) (os_Stat kp);;
  match st with
  | LErr err => if IsNotExist err then ret false else fail (Ext err)
  | LOk _ => ret true
  end.

Definition FSKeystore_Put (ks : FSKeystore) (name : string) (k : PrivKey)
  : M storage unit :=
  match validateName name with
  | Some err => fail err
  | None =>
      b <- pure_call (Bytes k);;
      let kp := filepath_Join (dir ks) name in
      st <- sys_read (SysStat kp) (os_Stat kp);;
      match st with
      | LOk _ => fail ErrKeyExists
      | LErr err =>
          if negb (IsNotExist err) then fail (Ext err)
          else
            fi <- sys_write (SysCreate kp) (os_Create kp);;
            match fi with
            | LErr err => fail (Ext err)
            | LOk _ =>
                w <- sys_write (SysWrite kp b) (file_Write kp b);;
                (* defer fi.Close() *)
                sys_write (SysClose kp) (fun s => (LOk tt, file_Close kp s));;;
                match w with
                | LErr err => fail (Ext err)
                | LOk _ => ret tt
                end
            end
      end
  end.

Definition FSKeystore_Get (ks : FSKeystore) (name : string) : M storage PrivKey :=
  match validateName name with
  | Some err => fail err
  | None =>
      let kp := filepath_Join (dir ks) name in
      data <- sys_read (SysReadFile kp) (ioutil_ReadFile kp);;
      match data with
      | LErr err => if IsNotExist err then fail ErrNoSuchKey else fail (Ext err)
      | LOk d => pure_call (UnmarshalPrivateKey d)
      end
  end.

Definition FSKeystore_List (ks : FSKeystore) : M storage (list string) :=
  d <- sys_read (SysOpen (dir ks)) (os_Open (dir ks));;
  match d with
  | LErr err => fail (Ext err)
  | LOk _ =>
      ns <- sys_read (SysReaddirnames (dir ks)) (file_Readdirnames (dir ks));;
      pure_call ns
  end.

(** The loop of [GetById]: [lastErr] is the variable of that name. *)
Fixpoint GetById_loop (ks : FSKeystore) (want : ID) (names : list string)
    (lastErr : option error) : M storage PrivKey :=
  match names with
  | [] =>
      match lastErr with
      | None => fail ErrNoSuchKey
      | Some err => fail err
      end
  | name :: names' =>
      fun s =>
        match FSKeystore_Get ks name s with
        | (Err err, s') => GetById_loop ks want names' (Some err) s'
        | (Panic, s') => (Panic, s')
        | (Ok sk, s') =>
            match IDFromPrivateKey sk with
            | LErr err => GetById_loop ks want names' (Some (Ext err)) s'
            | LOk id =>
                if decide (want = id) then (Ok sk, s')
                else GetById_loop ks want names' lastErr s'
            end
        end
  end.

Definition FSKeystore_GetById (ks : FSKeystore) (want : ID) : M storage PrivKey :=
  names <- FSKeystore_List ks;;
  GetById_loop ks want names None.

Definition FSKeystore_Delete (ks : FSKeystore) (name : string) : M storage unit :=
  match validateName name with
  | Some err => fail err
  | None =>
      let kp := filepath_Join (dir ks) name in
      rm <- sys_write (SysRemove kp) (os_Remove kp);;
      pure_call rm
  end.

(** [*FSKeystore] implements [Keystore]; its state is the storage. *)
#[export] Instance FSKeystore_Keystore (ks : FSKeystore) : Keystore storage := {
  Has := FSKeystore_Has ks;
  Put := FSKeystore_Put ks;
  Get := FSKeystore_Get ks;
  GetById := FSKeystore_GetById ks;
  Delete := FSKeystore_Delete ks;
  List := FSKeystore_List ks;
}.

(** ** Notions used to state the properties of the store *)

(** A name the store refuses: empty, with a slash, or starting with a
    period. *)
Definition illegal_name (name : string) : Prop :=
  name = "" ∨ In "/"%char (list_ascii_of_string name) ∨ ∃ rest, name = String "."%char rest.

(** No key file exists under [name]: reading it reports that it does not
    exist. *)
Definition key_file_missing (ks : FSKeystore) (name : string) (f : FS) : Prop :=
  ∃ err, ioutil_ReadFile (filepath_Join (dir ks) name) f = LErr err ∧ IsNotExist err = true.

(** The directory of the store lists [names]. *)
Definition listed (ks : FSKeystore) (f : FS) (names : list string) : Prop :=
  os_Open (dir ks) f = LOk tt ∧ file_Readdirnames (dir ks) f = LOk names.

(** Reading and decoding the key under one name of the listing, and
    deriving its identity. *)
Definition read_key (ks : FSKeystore) (f : FS) (name : string) : res (PrivKey * ID) :=
  match (FSKeystore_Get ks name {| fs := f; calls := [] |}).1 with
  | Ok sk =>
      match IDFromPrivateKey sk with
      | LOk id => Ok (sk, id)
      | LErr err => Err (Ext err)
      end
  | Err err => Err err
  | Panic => Panic
  end.

(** The key under [name] has the identity [want]. *)
Definition matches (ks : FSKeystore) (f : FS) (want : ID) (name : string) : Prop :=
  ∃ sk, read_key ks f name = Ok (sk, want).

(** The key under [name] was read and decoded without error. *)
Definition read_cleanly (ks : FSKeystore) (f : FS) (name : string) : Prop :=
  ∃ x, read_key ks f name = Ok x.

(** ** What is assumed of the operating system and of the key encoding
    where a property needs it *)

(** A file that was created, written and closed reads back as what was
    written, and exists. *)
Definition written_file_reads_back : Prop :=
  ∀ p b f f1 f2,
    os_Create p f = (LOk tt, f1) →
    file_Write p b f1 = (LOk tt, f2) →
    ioutil_ReadFile p (file_Close p f2) = LOk b
    ∧ os_Stat p (file_Close p f2) = LOk tt.

(** A file that was removed no longer exists. *)
Definition removed_file_is_gone : Prop :=
  ∀ p f f',
    os_Remove p f = (LOk tt, f') →
    (∃ err, ioutil_ReadFile p f' = LErr err ∧ IsNotExist err = true)
    ∧ (∃ err, os_Stat p f' = LErr err ∧ IsNotExist err = true).

(** Decoding the encoding of the key [k] gives [k]. *)
Definition key_decodes (k : PrivKey) : Prop :=
  ∀ b, Bytes k = LOk b → UnmarshalPrivateKey b = LOk k.

(** The calls that only read. *)
Definition reads_only (c : syscall) : bool :=
  match c with
  | SysStat _ | SysReadFile _ | SysOpen _ | SysReaddirnames _ => true
  | _ => false
  end.

(** The calls made between two states of the storage. *)
Definition new_calls (s s' : storage) : list syscall :=
  drop (length (calls s)) (calls s').

(** From [s] to [s'] the file system was only read. *)
Definition only_read (s s' : storage) : Prop :=
  fs s' = fs s
  ∧ ∃ cs, calls s' = (calls s ++ cs)%list ∧ Forall (λ c, reads_only c = true) cs.

End Keystore.

End keystore.

(** * Protocol buffer messages *)

(** [go-libp2p-record/pb]. *)
Module recpb.

Record Record_ := {
  Key : option string;
  Value : bytes;
  Author : option string;
  Signature : bytes;
  TimeReceived : option string;
}.

Definition GetValue (m : Record_) : bytes := Value m.

End recpb.

(** [namesys/pb]. *)
Module pb.

Record IpnsEntry := {
  Value : bytes;
  Signature : bytes;
  ValidityType : option Z;
  Validity : bytes;
  Sequence : option Z;
  Ttl : option Z;
}.

(** The getter of an optional field gives the zero value when it is unset. *)
Definition GetSequence (m : IpnsEntry) : Z :=
  match Sequence m with
  | Some s => s
  | None => 0
  end.

End pb.

(** * What the republisher calls outside its package *)

(** A datastore holds values of type [interface{}]. *)
Inductive dsvalue :=
| DsBytes (b : bytes)
| DsOther (tag : string).

Class Deps `{Crypto} := {
  (** [ds.Datastore] and its [Get] *)
  Datastore : Type;
  ds_Key : Type;
  ds_Get : ds_Key -> Datastore -> libres dsvalue;
  dshelp_NewKeyFromBinary : bytes -> ds_Key;
  (** [namesys.IpnsKeysForID] *)
  namesys_IpnsKeysForID : ID -> string * string;
  (** [proto.Unmarshal] into a [recpb.Record] and into a [pb.IpnsEntry] *)
  proto_Unmarshal_Record : bytes -> libres recpb.Record_;
  proto_Unmarshal_IpnsEntry : bytes -> libres pb.IpnsEntry;
  (** [routing.ValueStore] and [namesys.PutRecordToRouting] *)
  ValueStore : Type;
  namesys_PutRecordToRouting :
    PrivKey -> Path -> Z -> time.Time -> ID -> ValueStore -> libres unit * ValueStore;
  (** [time.Now()]: the reading of the clock at the n-th call. *)
  time_Now : nat -> time.Time;
}.

(** * Package [republisher] *)

Module republisher.

Definition DefaultRebroadcastInterval : time.Duration := time.Hour * 4.

Definition DefaultRecordLifetime : time.Duration := time.Hour * 24.

Section Republisher.
Context `{Deps} {K : Type} `{!keystore.Keystore K}.

Record Republisher := {
  r : ValueStore;
  ds : Datastore;
  self : PrivKey;
  ks : K;
  Interval : time.Duration;
  RecordLifetime : time.Duration;
  entries : gset ID;
}.

(** What the republisher does that can be seen from outside, in order. *)
Inductive event :=
| EvLock                                   (* rp.entrylock.Lock() *)
| EvUnlock                                 (* rp.entrylock.Unlock() *)
| EvDebugf (id : ID)                       (* log.Debugf("republishing ...", id) *)
| EvGetById (id : ID)                      (* rp.ks.GetById(id) *)
| EvDsGet (k : ds_Key)                     (* rp.ds.Get(k) *)
| EvNow (t : time.Time)                    (* time.Now() *)
| EvPut (priv : PrivKey) (p : Path) (seq : Z) (eol : time.Time) (id : ID)
                                           (* namesys.PutRecordToRouting *)
| EvPrintln (err : error)                  (* println *)
| EvLogError (err : error)                 (* log.Error *)
| EvNewTicker (d : time.Duration)          (* time.NewTicker(d) *)
| EvTickStop.                              (* tick.Stop() *)

Record world := {
  rp : Republisher;
  trace : list event;
  clock : nat;                             (* calls of time.Now() so far *)
}.

Definition emit (e : event) : M world unit :=
  fun w => (Ok tt, {| rp := rp w; trace := trace w ++ [e]; clock := clock w |}).

Definition get_rp : M world Republisher := fun w => (Ok (rp w), w).

Definition set_rp (rp' : Republisher) : M world unit :=
  fun w => (Ok tt, {| rp := rp'; trace := trace w; clock := clock w |}).

Definition panic {A} : M world A := fun w => (Panic, w).

(** [v, err := f()]: the caller receives the error instead of returning. *)
Definition attempt {S A} (m : M S A) : M S (error + A) :=
  fun s =>
    match m s with
    | (Ok a, s') => (Ok (inr a), s')
    | (Err e, s') => (Ok (inl e), s')
    | (Panic, s') => (Panic, s')
    end.

Definition NewRepublisher (r0 : ValueStore) (ds0 : Datastore) (self0 : PrivKey)
    (ks0 : K) : Republisher :=
  {| r := r0;
     ds := ds0;
     self := self0;
     ks := ks0;
     entries := ∅;
     Interval := DefaultRebroadcastInterval;
     RecordLifetime := DefaultRecordLifetime |}.

Definition AddName (id : ID) : M world unit :=
  emit EvLock;;;
  rp0 <- get_rp;;
  set_rp {| r := r rp0; ds := ds rp0; self := self rp0; ks := ks rp0;
            Interval := Interval rp0; RecordLifetime := RecordLifetime rp0;
            entries := {[id]} ∪ entries rp0 |};;;
  (* defer rp.entrylock.Unlock() *)
  emit EvUnlock.

(** [rp.ks.GetById(id)] *)
Definition ks_GetById (id : ID) : M world PrivKey :=
  emit (EvGetById id);;;
  fun w =>
    let rp0 := rp w in
    let '(x, ks') := keystore.GetById id (ks rp0) in
    (x, {| rp := {| r := r rp0; ds := ds rp0; self := self rp0; ks := ks';
                    Interval := Interval rp0; RecordLifetime := RecordLifetime rp0;
                    entries := entries rp0 |};
           trace := trace w; clock := clock w |}).

(** [rp.ds.Get(k)] *)
Definition rp_ds_Get (k : ds_Key) : M world (libres dsvalue) :=
  emit (EvDsGet k);;;
  rp0 <- get_rp;;
  ret (ds_Get k (ds rp0)).

(** [time.Now()] *)
Definition Now : M world time.Time :=
  fun w =>
    let t := time_Now (clock w) in
    (Ok t, {| rp := rp w; trace := trace w ++ [EvNow t]; clock := S (clock w) |}).

(** [namesys.PutRecordToRouting(ctx, priv, p, seq, eol, rp.r, id)] *)
Definition PutRecordToRouting (priv : PrivKey) (p : Path) (seq : Z)
    (eol : time.Time) (id : ID) : M world (libres unit) :=
  emit (EvPut priv p seq eol id);;;
  fun w =>
    let rp0 := rp w in
    let '(x, r') := namesys_PutRecordToRouting priv p seq eol id (r rp0) in
    (Ok x, {| rp := {| r := r'; ds := ds rp0; self := self rp0; ks := ks rp0;
                       Interval := Interval rp0; RecordLifetime := RecordLifetime rp0;
                       entries := entries rp0 |};
              trace := trace w; clock := clock w |}).

Definition getLastVal (k : string) : M world (Path * Z) :=
  ival <- rp_ds_Get (dshelp_NewKeyFromBinary (list_byte_of_string k));;
  match ival with
  | LErr _ =>
      (* not found means we dont have a previously published entry *)
      fail errNoEntry
  | LOk (DsOther _) => panic               (* val := ival.([]byte) *)
  | LOk (DsBytes val) =>
      dhtrec <- keystore.pure_call (proto_Unmarshal_Record val);;
      (* extract published data from record *)
      e <- keystore.pure_call (proto_Unmarshal_IpnsEntry (recpb.GetValue dhtrec));;
      ret (string_of_list_byte (pb.Value e), pb.GetSequence e)
  end.

(** The body of the [range] statement of [republishEntries] for one key:
    [ret tt] is falling through or [continue], an error is [return err]. *)
Definition republishEntry (id : ID) : M world unit :=
  emit (EvDebugf id);;;
  rp0 <- get_rp;;
  selfId <- keystore.pure_call (IDFromPrivateKey (self rp0));;
  priv <- (if decide (id = selfId) then ret (self rp0) else ks_GetById id);;
  (* Look for it locally only *)
  let ipnskey := (namesys_IpnsKeysForID id).2 in
  last <- attempt (getLastVal ipnskey);;
  match last with
  | inl err => if decide (err = errNoEntry) then ret tt else fail err
  | inr (p, seq) =>
      (* update record with same sequence number *)
      now <- Now;;
      let eol := time.Add now (RecordLifetime rp0) in
      put <- PutRecordToRouting priv p seq eol id;;
      match put with
      | LErr err => emit (EvPrintln (Ext err));;; fail (Ext err)
      | LOk _ => ret tt
      end
  end.

(** [for id, _ := range rp.entries { ... }], visiting the keys in [order]. *)
Fixpoint range_entries (order : list ID) : M world unit :=
  match order with
  | [] => ret tt
  | id :: order' => republishEntry id;;; range_entries order'
  end.

(** [republishEntries]: the context made from the process is only handed on
    to [PutRecordToRouting]. *)
Definition republishEntries (order : list ID) : M world unit :=
  range_entries order.

(** The orders in which a pass can visit the watch set. *)
Definition range_order (w : world) (order : list ID) : Prop :=
  order ≡ₚ elements (entries (rp w)).

(** What wakes the [select] of [Run]: the ticker (with the order in which
    the pass it starts will visit the map) or the closing of the process. *)
Inductive wake :=
| Tick (order : list ID)
| Closing.

Inductive status :=
| Blocked                                  (* waiting in the select *)
| Returned
| Crashed.                                 (* a panic went through Run *)

Fixpoint Run_loop (wakes : list wake) (w : world) : status * world :=
  match wakes with
  | [] => (Blocked, w)
  | Closing :: _ => (Returned, w)
  | Tick order :: wakes' =>
      match attempt (republishEntries order) w with
      | (Ok (inr _), w') => Run_loop wakes' w'
      | (Ok (inl err), w') =>
          Run_loop wakes' {| rp := rp w'; trace := trace w' ++ [EvLogError err];
                             clock := clock w' |}
      | (_, w') => (Crashed, w')
      end
  end.

(** [Run]: [time.NewTicker] panics unless the interval is positive; the
    deferred [tick.Stop()] runs when the function is left. *)
Definition Run (wakes : list wake) (w : world) : status * world :=
  if decide (Interval (rp w) <= 0) then (Crashed, w)
  else
    let w1 := {| rp := rp w; trace := trace w ++ [EvNewTicker (Interval (rp w))];
                 clock := clock w |} in
    match Run_loop wakes w1 with
    | (Blocked, w') => (Blocked, w')
    | (st, w') =>
        (st, {| rp := rp w'; trace := trace w' ++ [EvTickStop]; clock := clock w' |})
    end.

(** ** A pass while other goroutines register names

    [republishEntries] ranges over [rp.entries] itself: it takes no copy and
    does not hold [rp.entrylock].  A schedule is what happens between the
    start and the end of one pass: the [range] statement produces a key and
    the body runs for it, or another goroutine calls [AddName]. *)
Inductive action :=
| Visit (id : ID)
| Register (id : ID).

Fixpoint interleaved_pass (sched : list action) : M world unit :=
  match sched with
  | [] => ret tt
  | Visit id :: sched' => republishEntry id;;; interleaved_pass sched'
  | Register id :: sched' => AddName id;;; interleaved_pass sched'
  end.

(** The schedules Go allows for a [range] over the live map: a key is
    produced once, and only while it is in the map; an entry created during
    the iteration may be produced. *)
Fixpoint range_live (live visited : gset ID) (sched : list action) : bool :=
  match sched with
  | [] => true
  | Visit id :: sched' =>
      bool_decide (id ∈ live) && bool_decide (id ∉ visited)
      && range_live live ({[id]} ∪ visited) sched'
  | Register id :: sched' => range_live ({[id]} ∪ live) visited sched'
  end.

(** The schedules of a pass over a copy [snap] of the map taken at its
    start. *)
Fixpoint range_snapshot (snap visited : gset ID) (sched : list action) : bool :=
  match sched with
  | [] => true
  | Visit id :: sched' =>
      bool_decide (id ∈ snap) && bool_decide (id ∉ visited)
      && range_snapshot snap ({[id]} ∪ visited) sched'
  | Register id :: sched' => range_snapshot snap visited sched'
  end.

(** The events added to the trace between two worlds. *)
Definition new_events (w w' : world) : list event :=
  drop (length (trace w)) (trace w').

Definition is_lock (e : event) : bool :=
  match e with
  | EvLock | EvUnlock => true
  | _ => false
  end.

Definition is_put (e : event) : bool :=
  match e with
  | EvPut _ _ _ _ _ => true
  | _ => false
  end.

(** ** Notions used to state the properties of a pass *)

(** The cached record of [id] decodes to the path [p] and the sequence
    number [S]. *)
Definition cached (w : world) (id : ID) (p : Path) (S : Z) : Prop :=
  (getLastVal (namesys_IpnsKeysForID id).2 w).1 = Ok (p, S).

(** Resolving the signing key of [id] fails with [err]: the identity of the
    process cannot be derived from its own key, or [id] is another identity
    and the key store has an error for it. *)
Definition key_resolution_fails (w : world) (id : ID) (err : error) : Prop :=
  match IDFromPrivateKey (self (rp w)) with
  | LErr e => err = Ext e
  | LOk selfId => id ≠ selfId ∧ (keystore.GetById id (ks (rp w))).1 = Err err
  end.

(** Among the events [evs], a record with expiry [eol] is pushed right after
    the clock was read as [t]. *)
Definition renewed_at (evs : list event) (t eol : time.Time) : Prop :=
  ∃ pre priv p seq id post,
    evs = (pre ++ EvNow t :: EvPut priv p seq eol id :: post)%list.

(** Every push among [evs] comes right after a reading [t] of the clock and
    carries the expiry [t + lifetime]. *)
Definition expiry_from_clock (lifetime : time.Duration) (evs : list event) : Prop :=
  ∀ pre priv p seq eol id post,
    evs = (pre ++ EvPut priv p seq eol id :: post)%list →
    ∃ pre' t, pre = (pre' ++ [EvNow t])%list ∧ eol = time.Add t lifetime.

(** What a pass leaves alone in the republisher. *)
Definition same_config (w w' : world) : Prop :=
  ds (rp w') = ds (rp w) ∧ self (rp w') = self (rp w)
  ∧ Interval (rp w') = Interval (rp w)
  ∧ RecordLifetime (rp w') = RecordLifetime (rp w)
  ∧ entries (rp w') = entries (rp w).

(** Resolving the signing key of [id] gives [priv]: the process's own key
    for its own identity, the key store's key for another one. *)
Definition key_resolves (w : world) (id : ID) (priv : PrivKey) : Prop :=
  match IDFromPrivateKey (self (rp w)) with
  | LErr _ => False
  | LOk selfId =>
      if decide (id = selfId) then priv = self (rp w)
      else (keystore.GetById id (ks (rp w))).1 = Ok priv
  end.

(** The key under which the last record of [id] is looked up in the
    datastore. *)
Definition record_key (id : ID) : ds_Key :=
  dshelp_NewKeyFromBinary (list_byte_of_string (namesys_IpnsKeysForID id).2).

(** The stored bytes [val] do not decode, with the error [e]: as a record,
    or as the entry inside the record. *)
Definition decode_fails (val : bytes) (e : exterr) : Prop :=
  proto_Unmarshal_Record val = LErr e
  ∨ ∃ rec, proto_Unmarshal_Record val = LOk rec
           ∧ proto_Unmarshal_IpnsEntry (recpb.GetValue rec) = LErr e.

(** A push for the identity [id]. *)
Definition is_put_for (id : ID) (e : event) : bool :=
  match e with
  | EvPut _ _ _ _ id' => bool_decide (id' = id)
  | _ => false
  end.

(** The events of the ticker of [Run]. *)
Definition is_ticker (e : event) : bool :=
  match e with
  | EvNewTicker _ | EvTickStop => true
  | _ => false
  end.

(** [AddName] called for each identity of a list, one call after the
    other. *)
Fixpoint AddNames (ids : list ID) : M world unit :=
  match ids with
  | [] => ret tt
  | id :: ids' => AddName id;;; AddNames ids'
  end.

End Republisher.

End republisher.

(** * Small concrete collaborators

    Instances of the interfaces on which the definitions above can be run:
    a key is a string and its identity is ["Qm"] followed by it; the key
    store directory is a list of named files; a datastore is the list of the
    values on a disk; the routing store is the list of the records put. *)

Module Toy.

Definition crypto : Crypto := {|
  PrivKey := string;
  Bytes := fun k => LOk (list_byte_of_string k);
  UnmarshalPrivateKey := fun b =>
    match b with
    | [] => LErr (ErrLib "unexpected EOF")
    | _ => LOk (string_of_list_byte b)
    end;
  IDFromPrivateKey := fun k =>
    if decide (k = "broken") then LErr (ErrLib "bad key type")
    else LOk ("Qm" +:+ k);
|}.

Definition join (d name : string) : string := d +:+ "/" +:+ name.

(** The files of the one directory ["keys"]: name and content; [None] is a
    file that cannot be read. *)
Definition files := list (string * option bytes).

Fixpoint find_file (p : string) (f : files) : option (option bytes) :=
  match f with
  | [] => None
  | (n, c) :: f' => if decide (join "keys" n = p) then Some c else find_file p f'
  end.

Definition os : OS := {|
  FS := files;
  filepath_Join := join;
  os_Stat := fun p f =>
    match find_file p f with
    | Some _ => LOk tt
    | None => LErr (ErrOS "stat" p ENOENT)
    end;
  os_Mkdir := fun p f => (LOk tt, f);
  os_Create := fun p f => (LErr (ErrOS "open" p EACCES), f);
  file_Write := fun p b f => (LErr (ErrOS "write" p EACCES), f);
  file_Close := fun p f => f;
  ioutil_ReadFile := fun p f =>
    match find_file p f with
    | Some (Some c) => LOk c
    | Some None => LErr (ErrOS "read" p EIO)
    | None => LErr (ErrOS "open" p ENOENT)
    end;
  os_Remove := fun p f => (LErr (ErrOS "remove" p EACCES), f);
  os_Open := fun p f => LOk tt;
  file_Readdirnames := fun p f => LOk (map fst f);
|}.

(** A record is its value; an entry is one byte of sequence number and then
    the path. *)
Definition unmarshal_record (b : bytes) : libres recpb.Record_ :=
  match b with
  | [] => LErr (ErrLib "proto: record: unexpected EOF")
  | _ => LOk {| recpb.Key := None; recpb.Value := b; recpb.Author := None;
                recpb.Signature := []; recpb.TimeReceived := None |}
  end.

Definition unmarshal_entry (b : bytes) : libres pb.IpnsEntry :=
  match b with
  | [] => LErr (ErrLib "proto: entry: unexpected EOF")
  | s :: v => LOk {| pb.Value := v; pb.Signature := []; pb.ValidityType := None;
                     pb.Validity := []; pb.Sequence := Some (Z.of_N (Byte.to_N s));
                     pb.Ttl := None |}
  end.

(** A datastore: the values on a disk, or a disk that cannot be read. *)
Inductive disk :=
| Disk (kv : list (bytes * dsvalue))
| BrokenDisk.

Fixpoint disk_find (k : bytes) (kv : list (bytes * dsvalue)) : libres dsvalue :=
  match kv with
  | [] => LErr (ErrLib "datastore: key not found")
  | (k', v) :: kv' => if decide (k' = k) then LOk v else disk_find k kv'
  end.

Definition disk_get (k : bytes) (d : disk) : libres dsvalue :=
  match d with
  | Disk kv => disk_find k kv
  | BrokenDisk => LErr (ErrLib "read /repo/datastore: input/output error")
  end.

Definition deps : @Deps crypto := {|
  Datastore := disk;
  ds_Key := bytes;
  ds_Get := disk_get;
  dshelp_NewKeyFromBinary := fun b => b;
  namesys_IpnsKeysForID := fun id => ("/pk/" +:+ id, "/ipns/" +:+ id);
  proto_Unmarshal_Record := unmarshal_record;
  proto_Unmarshal_IpnsEntry := unmarshal_entry;
  ValueStore := list (ID * Path * Z * time.Time);
  namesys_PutRecordToRouting := fun _ p seq eol id r => (LOk tt, (r ++ [(id, p, seq, eol)])%list);
  time_Now := fun n => 1000 + Z.of_nat n;
|}.

(** A key store in memory: identities and their keys. *)
Fixpoint find_key (id : ID) (k : list (ID * string)) : res (@PrivKey crypto) :=
  match k with
  | [] => Err ErrNoSuchKey
  | (i, sk) :: k' => if decide (i = id) then Ok sk else find_key id k'
  end.

Definition memkeys : @keystore.Keystore crypto (list (ID * string)) := {|
  keystore.Has := fun n k => (Ok false, k);
  keystore.Put := fun n sk k => (Ok tt, k);
  keystore.Get := fun n k => (Err ErrNoSuchKey, k);
  keystore.GetById := fun id k => (find_key id k, k);
  keystore.Delete := fun n k => (Ok tt, k);
  keystore.List := fun k => (Ok [], k);
|}.

(** The datastore that holds, for the identity ["QmX"], a record with
    sequence number 3 and path ["/ipfs/abc"], and nothing else. *)
Definition ds_X : disk :=
  Disk [(list_byte_of_string "/ipns/QmX",
         DsBytes (Byte.x03 :: list_byte_of_string "/ipfs/abc"))].

Definition republisher_of (d : disk) (lifetime : time.Duration)
    (names : gset ID) : @republisher.Republisher crypto deps (list (ID * string)) :=
  @republisher.Build_Republisher crypto deps (list (ID * string))
    [] d "X" [("QmY", "Y")] republisher.DefaultRebroadcastInterval lifetime names.

Definition world_of (d : disk) (lifetime : time.Duration)
    (names : gset ID) : @republisher.world crypto deps (list (ID * string)) :=
  @republisher.Build_world crypto deps (list (ID * string))
    (republisher_of d lifetime names) [] 0%nat.

(** A file system in memory on which files can be written: the files of
    the directory ["keys"], by name.  A path outside the directory does not
    exist. *)
Definition name_of (p : string) : option string :=
  if gostrings.HasPrefix p "keys/" then Some (String.substring 5 (String.length p - 5) p)
  else None.

Fixpoint mem_find (n : string) (f : list (string * bytes)) : option bytes :=
  match f with
  | [] => None
  | (n', c) :: f' => if decide (n' = n) then Some c else mem_find n f'
  end.

Fixpoint mem_remove (n : string) (f : list (string * bytes)) : list (string * bytes) :=
  match f with
  | [] => []
  | (n', c) :: f' => if decide (n' = n) then mem_remove n f' else (n', c) :: mem_remove n f'
  end.

Definition mem_lookup (p : string) (f : list (string * bytes)) : option bytes :=
  match name_of p with
  | Some n => mem_find n f
  | None => None
  end.

Definition memfs : OS := {|
  FS := list (string * bytes);
  filepath_Join := join;
  os_Stat := fun p f =>
    match mem_lookup p f with
    | Some _ => LOk tt
    | None => LErr (ErrOS "stat" p ENOENT)
    end;
  os_Mkdir := fun p f => (LOk tt, f);
  os_Create := fun p f =>
    match name_of p with
    | Some n => (LOk tt, (n, []) :: mem_remove n f)
    | None => (LErr (ErrOS "open" p ENOENT), f)
    end;
  file_Write := fun p b f =>
    match name_of p, mem_lookup p f with
    | Some n, Some c => (LOk tt, (n, (c ++ b)%list) :: mem_remove n f)
    | _, _ => (LErr (ErrOS "write" p ENOENT), f)
    end;
  file_Close := fun p f => f;
  ioutil_ReadFile := fun p f =>
    match mem_lookup p f with
    | Some c => LOk c
    | None => LErr (ErrOS "open" p ENOENT)
    end;
  os_Remove := fun p f =>
    match name_of p, mem_lookup p f with
    | Some n, Some _ => (LOk tt, mem_remove n f)
    | _, _ => (LErr (ErrOS "remove" p ENOENT), f)
    end;
  os_Open := fun p f => LOk tt;
  file_Readdirnames := fun p f => LOk (map fst f);
|}.

(** A storage in memory that holds the key ["A"] under the name ["a"]. *)
Definition store_mem : @keystore.storage memfs :=
  @keystore.Build_storage memfs [("a", list_byte_of_string "A")] [].

(** Worlds on the datastore [ds_X]: the process has the key ["X"], so its
    own identity is ["QmX"]; the key store has a key for ["QmY"] only. *)
Definition w_XY := world_of ds_X republisher.DefaultRecordLifetime {["QmX"; "QmY"]}.
Definition w_XYZ := world_of ds_X republisher.DefaultRecordLifetime {["QmX"; "QmY"; "QmZ"]}.
Definition w_Y := world_of ds_X republisher.DefaultRecordLifetime {["QmY"]}.

(** The same, with a record lifetime of zero. *)
Definition w_zero := world_of ds_X 0 {["QmX"]}.

(** The same, on a disk that cannot be read. *)
Definition w_broken := world_of BrokenDisk republisher.DefaultRecordLifetime {["QmX"]}.

(** A key store directory with the keys ["A"] and ["B"] and, between them, a
    file that cannot be read. *)
Definition keys_dir : keystore.FSKeystore := {| keystore.dir := "keys" |}.

Definition store_acb : @keystore.storage os :=
  @keystore.Build_storage os
    [("a", Some (list_byte_of_string "A")); ("c", None);
     ("b", Some (list_byte_of_string "B"))] [].

(** The collaborators again, with a routing store that cannot be reached:
    every push fails. *)
Definition deps_offline : @Deps crypto := {|
  Datastore := disk;
  ds_Key := bytes;
  ds_Get := disk_get;
  dshelp_NewKeyFromBinary := fun b => b;
  namesys_IpnsKeysForID := fun id => ("/pk/" +:+ id, "/ipns/" +:+ id);
  proto_Unmarshal_Record := unmarshal_record;
  proto_Unmarshal_IpnsEntry := unmarshal_entry;
  ValueStore := list (ID * Path * Z * time.Time);
  namesys_PutRecordToRouting := fun _ p seq eol id r =>
    (LErr (ErrLib "routing: network is unreachable"), r);
  time_Now := fun n => 1000 + Z.of_nat n;
|}.

Definition w_offline : @republisher.world crypto deps_offline (list (ID * string)) :=
  @republisher.Build_world crypto deps_offline (list (ID * string))
    (@republisher.Build_Republisher crypto deps_offline (list (ID * string))
       [] ds_X "X" [("QmY", "Y")] republisher.DefaultRebroadcastInterval
       republisher.DefaultRecordLifetime {["QmX"; "QmY"]})
    [] 0%nat.

(** A datastore whose value for ["QmX"] is empty, and one whose value for
    ["QmX"] is not a byte slice. *)
Definition ds_garbled : disk :=
  Disk [(list_byte_of_string "/ipns/QmX", DsBytes [])].

Definition ds_other : disk :=
  Disk [(list_byte_of_string "/ipns/QmX", DsOther "string")].

(** A world with a republisher just made by [NewRepublisher]. *)
Definition w_new : @republisher.world crypto deps (list (ID * string)) :=
  @republisher.Build_world crypto deps (list (ID * string))
    (@republisher.NewRepublisher crypto deps (list (ID * string))
       [] ds_X "X" [("QmY", "Y")])
    [] 0%nat.

Definition w_garbled := world_of ds_garbled republisher.DefaultRecordLifetime {["QmX"; "QmY"]}.
Definition w_other := world_of ds_other republisher.DefaultRecordLifetime {["QmX"; "QmY"]}.

End Toy.

(** * Properties of package [keystore] *)

Section KeystoreFacts.
Context `{Crypto} `{OS}.
Import keystore.

Lemma HasPrefix_period (s : string) :
  gostrings.HasPrefix s "." = true ↔ ∃ rest, s = String "."%char rest.
Proof.
  destruct s as [|c s]; simpl.
  - split; [discriminate | intros [r Hr]; discriminate].
  - case_decide as Hc.
    + subst c. split; eauto.
    + split; [discriminate | intros [r Hr]; congruence].
Qed.

Lemma Contains_slash (s : string) :
  gostrings.Contains s "/" = true ↔ In "/"%char (list_ascii_of_string s).
Proof.
  induction s as [|c s IH]; simpl.
  - split; [discriminate | tauto].
  - case_decide as Hc; simpl.
    + split; [intros _; by left | done].
    + rewrite IH. split; [by right | intros [Hd | Hin]; [congruence | done]].
Qed.

Lemma validateName_illegal (name : string) :
  illegal_name name ↔ ∃ msg, validateName name = Some (Errorf msg).
Proof.
  unfold illegal_name, validateName.
  case_decide as Hempty.
  { split; eauto. }
  destruct (gostrings.Contains name "/") eqn:Hslash.
  { apply Contains_slash in Hslash. split; eauto. }
  destruct (gostrings.HasPrefix name ".") eqn:Hdot.
  { apply HasPrefix_period in Hdot. split; eauto. }
  split.
  - intros [Hn | [Hin | Hp]].
    + done.
    + apply Contains_slash in Hin. congruence.
    + apply HasPrefix_period in Hp. congruence.
  - intros [msg Hmsg]. discriminate.
Qed.

Lemma validateName_Errorf (name : string) (err : error) :
  validateName name = Some err → ∃ msg, err = Errorf msg.
Proof.
  unfold validateName. intros Hv.
  repeat (case_decide || case_match); simplify_eq; eauto.
Qed.

Lemma validateName_legal (name : string) :
  validateName name = None ↔ ¬ illegal_name name.
Proof.
  rewrite validateName_illegal. split.
  - intros Hv [msg Hmsg]. congruence.
  - intros Hn. destruct (validateName name) as [err|] eqn:Hv; [|done].
    exfalso. apply Hn. unfold validateName in Hv.
    repeat (case_decide || case_match); simplify_eq; eauto.
Qed.

(** [Get] only reads: the file system is the one it was given, and what it
    returns depends on the file system alone. *)
Lemma Get_reads_only (ks : FSKeystore) (name : string) (s : storage) :
  fs (FSKeystore_Get ks name s).2 = fs s
  ∧ (FSKeystore_Get ks name s).1 = (FSKeystore_Get ks name {| fs := fs s; calls := [] |}).1.
Proof.
  unfold FSKeystore_Get. destruct (validateName name); [done|].
  unfold bind, sys_read, pure_call, fail; simpl.
  destruct (ioutil_ReadFile _ (fs s)) as [d|err]; simpl; [done|].
  destruct (IsNotExist err); done.
Qed.

Lemma Get_never_panics (ks : FSKeystore) (name : string) (s : storage) :
  (FSKeystore_Get ks name s).1 ≠ Panic.
Proof.
  unfold FSKeystore_Get. destruct (validateName name); [done|].
  unfold bind, sys_read, pure_call, fail; simpl.
  destruct (ioutil_ReadFile _ (fs s)) as [d|err]; simpl.
  - destruct (UnmarshalPrivateKey d); done.
  - destruct (IsNotExist err); done.
Qed.

(** One turn of the loop of [GetById], in terms of [read_key]. *)
Lemma GetById_loop_cons ks want name names lastErr s :
  ∃ s', fs s' = fs s ∧
    GetById_loop ks want (name :: names) lastErr s =
      match read_key ks (fs s) name with
      | Ok (sk, id) =>
          if decide (want = id) then (Ok sk, s')
          else GetById_loop ks want names lastErr s'
      | Err err => GetById_loop ks want names (Some err) s'
      | Panic => (Panic, s')
      end.
Proof.
  destruct (Get_reads_only ks name s) as [Hfs Hres].
  exists (FSKeystore_Get ks name s).2. split; [done|].
  simpl. unfold read_key. rewrite <- Hres.
  destruct (FSKeystore_Get ks name s) as [[sk|err|] s']; simpl; [|done..].
  destruct (IDFromPrivateKey sk); done.
Qed.

Lemma read_key_never_panics ks f name : read_key ks f name ≠ Panic.
Proof.
  unfold read_key.
  pose proof (Get_never_panics ks name {| fs := f; calls := [] |}) as Hp.
  destruct (FSKeystore_Get ks name _).1 as [sk|err|]; [|done..].
  destruct (IDFromPrivateKey sk); done.
Qed.

(** When no name matches and every name is read cleanly, the loop ends with
    the error it started with, or with [ErrNoSuchKey]. *)
Lemma GetById_loop_clean ks want names lastErr s :
  (∀ m, m ∈ names → ¬ matches ks (fs s) want m) →
  (∀ m, m ∈ names → read_cleanly ks (fs s) m) →
  (GetById_loop ks want names lastErr s).1 =
    Err (match lastErr with None => ErrNoSuchKey | Some err => err end).
Proof.
  revert s. induction names as [|name names IH]; intros s Hno Hclean.
  - simpl. destruct lastErr; done.
  - destruct (GetById_loop_cons ks want name names lastErr s) as (s' & Hfs & ->).
    destruct (Hclean name) as [[sk id] Hrk]; [set_solver|].
    rewrite Hrk. case_decide as Hid.
    + exfalso. apply (Hno name); [set_solver|]. exists sk. by subst.
    + apply IH; rewrite Hfs; intros m Hm; [apply Hno | apply Hclean]; set_solver.
Qed.

(** The loop does not stop at a name that fails or does not match: it
    returns the first key that matches. *)
Lemma GetById_loop_first_match ks want (pre : list string) name post sk lastErr s :
  (∀ m, m ∈ pre → ¬ matches ks (fs s) want m) →
  read_key ks (fs s) name = Ok (sk, want) →
  (GetById_loop ks want (pre ++ name :: post) lastErr s).1 = Ok sk.
Proof.
  revert s lastErr. induction pre as [|m pre IH]; intros s lastErr Hno Hrk.
  - simpl app.
    destruct (GetById_loop_cons ks want name post lastErr s) as (s' & Hfs & ->).
    rewrite Hrk. by rewrite decide_True.
  - simpl app.
    destruct (GetById_loop_cons ks want m (pre ++ name :: post) lastErr s)
      as (s' & Hfs & ->).
    assert (Htail : ∀ m', m' ∈ pre → ¬ matches ks (fs s') want m').
    { rewrite Hfs. intros m' Hm'. apply Hno. set_solver. }
    destruct (read_key ks (fs s) m) as [[sk' id]|err|] eqn:Hm.
    + case_decide as Hid.
      * exfalso. apply (Hno m); [set_solver|]. exists sk'. by subst.
      * apply IH; [done | by rewrite Hfs].
    + apply IH; [done | by rewrite Hfs].
    + by apply read_key_never_panics in Hm.
Qed.

(** When no name matches, the loop returns the error of the last name that
    failed. *)
Lemma GetById_loop_last_error ks want (pre : list string) name post err lastErr s :
  (∀ m, m ∈ (pre ++ name :: post)%list → ¬ matches ks (fs s) want m) →
  read_key ks (fs s) name = Err err →
  (∀ m, m ∈ post → read_cleanly ks (fs s) m) →
  (GetById_loop ks want (pre ++ name :: post) lastErr s).1 = Err err.
Proof.
  revert s lastErr. induction pre as [|m pre IH]; intros s lastErr Hno Hrk Hclean.
  - simpl app.
    destruct (GetById_loop_cons ks want name post lastErr s) as (s' & Hfs & ->).
    rewrite Hrk.
    rewrite GetById_loop_clean; [done | rewrite Hfs..].
    + intros m Hm. apply Hno. set_solver.
    + done.
  - simpl app.
    destruct (GetById_loop_cons ks want m (pre ++ name :: post) lastErr s)
      as (s' & Hfs & ->).
    assert (Htail : ∀ m', m' ∈ (pre ++ name :: post)%list → ¬ matches ks (fs s') want m').
    { rewrite Hfs. intros m' Hm'. apply Hno. set_solver. }
    destruct (read_key ks (fs s) m) as [[sk' id]|err'|] eqn:Hm.
    + case_decide as Hid.
      * exfalso. apply (Hno m); [set_solver|]. exists sk'. by subst.
      * apply IH; [done | by rewrite Hfs..].
    + apply IH; [done | by rewrite Hfs..].
    + by apply read_key_never_panics in Hm.
Qed.

Lemma GetById_listed ks want s names :
  listed ks (fs s) names →
  ∃ s', fs s' = fs s ∧ FSKeystore_GetById ks want s = GetById_loop ks want names None s'.
Proof.
  intros [Hopen Hnames].
  unfold FSKeystore_GetById, FSKeystore_List, bind, sys_read, pure_call; simpl.
  rewrite Hopen; simpl. rewrite Hnames; simpl.
  by eexists {| fs := fs s; calls := _ |}.
Qed.

(** C9: [Get] returns [ErrNoSuchKey] exactly when the name is legal and no
    key file exists under it; [Get], [Put] and [Delete] refuse an empty name,
    a name with a slash and a name that begins with a period with a
    validation error, and make no call to the operating system: the storage
    and the list of calls are as before. *)
Theorem FSKeystore_NoSuchKey_and_validation
    (ks : FSKeystore) (name : string) (k : PrivKey) (s : storage) :
  ((FSKeystore_Get ks name s).1 = Err ErrNoSuchKey ↔
     ¬ illegal_name name ∧ key_file_missing ks name (fs s))
  ∧ (illegal_name name →
     ∃ msg,
       FSKeystore_Get ks name s = (Err (Errorf msg), s)
       ∧ FSKeystore_Put ks name k s = (Err (Errorf msg), s)
       ∧ FSKeystore_Delete ks name s = (Err (Errorf msg), s)).
Proof.
  split.
  - rewrite <- validateName_legal. unfold FSKeystore_Get, key_file_missing.
    destruct (validateName name) as [err|] eqn:Hv.
    + split; [|intros [? _]; done].
      unfold fail; simpl. intros [= ->].
      apply validateName_Errorf in Hv as [msg Hmsg]. discriminate.
    + unfold bind, sys_read, pure_call, fail; simpl.
      destruct (ioutil_ReadFile _ (fs s)) as [d|err] eqn:Hread; simpl.
      * split.
        -- destruct (UnmarshalPrivateKey d); done.
        -- intros (_ & err & [=] & _).
      * destruct (IsNotExist err) eqn:Hne; simpl.
        -- split; eauto.
        -- split; [done|]. intros (_ & err' & [= <-] & Hne'). congruence.
  - intros Hbad. apply validateName_illegal in Hbad as [msg Hmsg].
    exists msg. unfold FSKeystore_Get, FSKeystore_Put, FSKeystore_Delete.
    rewrite Hmsg. done.
Qed.

(** C10: [GetById] does not stop at a name whose key cannot be read or
    decoded: it returns the first key of the listing whose identity is the
    wanted one, whatever happened with the names before it.  When no key
    matches, it returns [ErrNoSuchKey] if every name was read cleanly, and
    the error of the last name that failed otherwise. *)
Theorem GetById_scans_past_errors
    (ks : FSKeystore) (want : ID) (s : storage) (names : list string) :
  listed ks (fs s) names →
  (∀ (pre : list string) name post sk,
     names = (pre ++ name :: post)%list →
     (∀ m, m ∈ pre → ¬ matches ks (fs s) want m) →
     read_key ks (fs s) name = Ok (sk, want) →
     (FSKeystore_GetById ks want s).1 = Ok sk)
  ∧ ((∀ m, m ∈ names → ¬ matches ks (fs s) want m) →
     ((∀ m, m ∈ names → read_cleanly ks (fs s) m) →
      (FSKeystore_GetById ks want s).1 = Err ErrNoSuchKey)
     ∧ (∀ (pre : list string) name post err,
          names = (pre ++ name :: post)%list →
          read_key ks (fs s) name = Err err →
          (∀ m, m ∈ post → read_cleanly ks (fs s) m) →
          (FSKeystore_GetById ks want s).1 = Err err)).
Proof.
  intros Hlist.
  destruct (GetById_listed ks want s names Hlist) as (s' & Hfs & ->).
  rewrite <- Hfs. split; [|intros Hno; split].
  - intros pre name post sk -> Hpre Hrk. by apply GetById_loop_first_match.
  - intros Hclean. by rewrite GetById_loop_clean.
  - intros pre name post err -> Hrk Hclean. by apply GetById_loop_last_error.
Qed.

(** ** Further properties of the key store *)

Lemma new_calls_app (s s' : storage) (cs : list syscall) :
  calls s' = (calls s ++ cs)%list → new_calls s s' = cs.
Proof. intros Hc. unfold new_calls. rewrite Hc. apply drop_app_length. Qed.

Lemma only_read_refl (s : storage) : only_read s s.
Proof. split; [done|]. exists []. by rewrite app_nil_r. Qed.

Lemma only_read_trans (s1 s2 s3 : storage) :
  only_read s1 s2 → only_read s2 s3 → only_read s1 s3.
Proof.
  intros [Hf1 (c1 & Hc1 & Hr1)] [Hf2 (c2 & Hc2 & Hr2)].
  split; [congruence|]. exists (c1 ++ c2)%list.
  split; [by rewrite Hc2, Hc1, app_assoc | by apply Forall_app].
Qed.

Lemma Get_only_reads (ks : FSKeystore) (name : string) (s : storage) :
  only_read s (FSKeystore_Get ks name s).2.
Proof.
  unfold FSKeystore_Get. destruct (validateName name); [apply only_read_refl|].
  unfold bind, sys_read, pure_call, fail; simpl.
  assert (Hr : only_read s
            {| fs := fs s;
               calls := calls s ++ [SysReadFile (filepath_Join (dir ks) name)] |}).
  { split; [done|]. eexists. split; [done|]. by repeat constructor. }
  destruct (ioutil_ReadFile _ (fs s)) as [d|err]; simpl; [done|].
  by destruct (IsNotExist err).
Qed.

Lemma List_only_reads (ks : FSKeystore) (s : storage) :
  only_read s (FSKeystore_List ks s).2.
Proof.
  unfold FSKeystore_List, bind, sys_read, pure_call, fail; simpl.
  destruct (os_Open (dir ks) (fs s)); simpl.
  - split; [done|]. exists [SysOpen (dir ks); SysReaddirnames (dir ks)].
    split; [by rewrite <- app_assoc | by repeat constructor].
  - split; [done|]. eexists. split; [done|]. by repeat constructor.
Qed.

Lemma GetById_loop_only_reads ks want names lastErr s :
  only_read s (GetById_loop ks want names lastErr s).2.
Proof.
  revert lastErr s. induction names as [|name names IH]; intros lastErr s.
  - simpl. destruct lastErr; apply only_read_refl.
  - simpl. pose proof (Get_only_reads ks name s) as Hget.
    destruct (FSKeystore_Get ks name s) as [[sk|err|] s']; simpl in *.
    + destruct (IDFromPrivateKey sk) as [id|err].
      * case_decide; [done|]. eapply only_read_trans; [done | apply IH].
      * eapply only_read_trans; [done | apply IH].
    + eapply only_read_trans; [done | apply IH].
    + done.
Qed.

(** A key that the loop of [GetById] returns is the key read under one of
    the names, and has the wanted identity. *)
Lemma GetById_loop_sound ks want names lastErr s sk :
  (GetById_loop ks want names lastErr s).1 = Ok sk →
  ∃ name, name ∈ names ∧ read_key ks (fs s) name = Ok (sk, want).
Proof.
  revert lastErr s. induction names as [|name names IH]; intros lastErr s.
  - simpl. by destruct lastErr.
  - destruct (GetById_loop_cons ks want name names lastErr s) as (s' & Hfs & ->).
    destruct (read_key ks (fs s) name) as [[sk' id]|err|] eqn:Hrk.
    + case_decide as Hid.
      * intros [= ->]. subst id. exists name. split; [apply list_elem_of_here | done].
      * intros (n & Hn & Hr)%IH. exists n.
        split; [by apply list_elem_of_further | by rewrite <- Hfs].
    + intros (n & Hn & Hr)%IH. exists n.
      split; [by apply list_elem_of_further | by rewrite <- Hfs].
    + done.
Qed.

(** What [Put] does, case by case. *)
Lemma Put_run (ks : FSKeystore) (name : string) (k : PrivKey) (s : storage) :
  let kp := filepath_Join (dir ks) name in
  FSKeystore_Put ks name k s =
    match validateName name with
    | Some err => (Err err, s)
    | None =>
        match Bytes k with
        | LErr err => (Err (Ext err), s)
        | LOk b =>
            match os_Stat kp (fs s) with
            | LOk _ =>
                (Err ErrKeyExists, {| fs := fs s; calls := calls s ++ [SysStat kp] |})
            | LErr err =>
                if IsNotExist err then
                  match (os_Create kp (fs s)).1 with
                  | LErr err' =>
                      (Err (Ext err'),
                       {| fs := (os_Create kp (fs s)).2;
                          calls := calls s ++ [SysStat kp; SysCreate kp] |})
                  | LOk _ =>
                      (lift (file_Write kp b (os_Create kp (fs s)).2).1,
                       {| fs := file_Close kp (file_Write kp b (os_Create kp (fs s)).2).2;
                          calls := calls s ++ [SysStat kp; SysCreate kp;
                                               SysWrite kp b; SysClose kp] |})
                  end
                else (Err (Ext err), {| fs := fs s; calls := calls s ++ [SysStat kp] |})
            end
        end
    end.
Proof.
  unfold FSKeystore_Put. destruct (validateName name); [done|].
  unfold bind, sys_read, sys_write, pure_call, fail, ret, lift; simpl.
  destruct (Bytes k) as [b|err]; simpl; [|done].
  destruct (os_Stat _ (fs s)) as [?|err]; simpl; [done|].
  destruct (IsNotExist err); simpl; [|done].
  destruct (os_Create _ (fs s)) as [[?|err'] f1]; simpl.
  - rewrite <- !app_assoc. simpl.
    destruct (file_Write _ b f1) as [[[]|err'] f2]; simpl; done.
  - by rewrite <- !app_assoc.
Qed.

Lemma Has_run (ks : FSKeystore) (name : string) (s : storage) :
  let kp := filepath_Join (dir ks) name in
  FSKeystore_Has ks name s =
    (match os_Stat kp (fs s) with
     | LOk _ => Ok true
     | LErr err => if IsNotExist err then Ok false else Err (Ext err)
     end,
     {| fs := fs s; calls := calls s ++ [SysStat kp] |}).
Proof.
  unfold FSKeystore_Has, bind, sys_read, fail, ret; simpl.
  destruct (os_Stat _ (fs s)) as [?|err]; simpl; [done|].
  by destruct (IsNotExist err).
Qed.

(** X1: [validateName] accepts exactly the names that are not empty, have
    no slash and do not begin with a period.  Of the names it refuses, the
    empty one gets the message about the length, a name with a slash the
    message about slashes (also when it begins with a period), and any other
    name that begins with a period the message about the period. *)
Theorem validateName_accepts_exactly (name : string) :
  (validateName name = None ↔
     name ≠ "" ∧ ¬ In "/"%char (list_ascii_of_string name)
     ∧ ¬ ∃ rest, name = String "."%char rest)
  ∧ (name = "" →
     validateName name = Some (Errorf "key names must be at least one character"))
  ∧ (In "/"%char (list_ascii_of_string name) →
     validateName name = Some (Errorf "key names may not contain slashes"))
  ∧ (¬ In "/"%char (list_ascii_of_string name) → (∃ rest, name = String "."%char rest) →
     validateName name = Some (Errorf "key names may not begin with a period")).
Proof.
  split; [|split; [|split]].
  - rewrite validateName_legal. unfold illegal_name. tauto.
  - intros ->. done.
  - intros Hin. unfold validateName.
    rewrite decide_False by (intros ->; done).
    apply Contains_slash in Hin. by rewrite Hin.
  - intros Hno [rest ->]. unfold validateName.
    rewrite decide_False by done.
    destruct (gostrings.Contains _ "/") eqn:Hc; [by apply Contains_slash in Hc|].
    by rewrite (proj2 (HasPrefix_period _)) by eauto.
Qed.

(** X2: [Put] returns [ErrKeyExists] exactly when the name is legal, the key
    can be encoded and [Has] reports that a key is there; it then has made
    one call ([Stat]) and written nothing. *)
Theorem Put_KeyExists_iff_Has
    (ks : FSKeystore) (name : string) (k : PrivKey) (s : storage) :
  ((FSKeystore_Put ks name k s).1 = Err ErrKeyExists ↔
     ¬ illegal_name name ∧ (∃ b, Bytes k = LOk b)
     ∧ (FSKeystore_Has ks name s).1 = Ok true)
  ∧ ((FSKeystore_Put ks name k s).1 = Err ErrKeyExists →
     (FSKeystore_Put ks name k s).2
     = {| fs := fs s; calls := calls s ++ [SysStat (filepath_Join (dir ks) name)] |}).
Proof.
  rewrite <- validateName_legal.
  pose proof (Put_run ks name k s) as Hput. pose proof (Has_run ks name s) as Hhas.
  cbv zeta in *. rewrite Hput, Hhas. clear Hput Hhas. simpl.
  destruct (validateName name) as [err|] eqn:Hv.
  { apply validateName_Errorf in Hv as [msg ->].
    split; [split; [done | by intros [? _]] | done]. }
  destruct (Bytes k) as [b|err]; [|split; [split; [done | by intros (_ & [b ?] & _)] | done]].
  destruct (os_Stat _ (fs s)) as [?|err]; simpl.
  { split; [split; eauto | done]. }
  destruct (IsNotExist err); simpl.
  - destruct (os_Create _ (fs s)).1; simpl.
    + destruct (file_Write _ b _).1; simpl.
      all: split; [split; [done | by intros (_ & _ & ?)] | done].
    + split; [split; [done | by intros (_ & _ & ?)] | done].
  - split; [split; [done | by intros (_ & _ & ?)] | done].
Qed.

(** X3: when the name is legal, the key can be encoded, no file is there and
    the file can be created, [Put] writes the encoding of the key to the
    file and closes the file, whether or not the write succeeds; it returns
    the error of the write, if any. *)
Theorem Put_writes_and_closes
    (ks : FSKeystore) (name : string) (k : PrivKey) (s : storage)
    (b : bytes) (err : exterr) (f1 : FS) :
  ¬ illegal_name name →
  Bytes k = LOk b →
  os_Stat (filepath_Join (dir ks) name) (fs s) = LErr err →
  IsNotExist err = true →
  os_Create (filepath_Join (dir ks) name) (fs s) = (LOk tt, f1) →
  FSKeystore_Put ks name k s
  = (lift (file_Write (filepath_Join (dir ks) name) b f1).1,
     {| fs := file_Close (filepath_Join (dir ks) name)
                (file_Write (filepath_Join (dir ks) name) b f1).2;
        calls := calls s ++ [SysStat (filepath_Join (dir ks) name);
                             SysCreate (filepath_Join (dir ks) name);
                             SysWrite (filepath_Join (dir ks) name) b;
                             SysClose (filepath_Join (dir ks) name)] |}).
Proof.
  intros Hlegal%validateName_legal Hb Hstat Hne Hcreate.
  pose proof (Put_run ks name k s) as Hput. cbv zeta in Hput.
  by rewrite Hput, Hlegal, Hb, Hstat, Hne, Hcreate.
Qed.

(** What a [Put] that returned no error has done. *)
Lemma Put_Ok_inv (ks : FSKeystore) (name : string) (k : PrivKey) (s : storage) :
  (FSKeystore_Put ks name k s).1 = Ok tt →
  let kp := filepath_Join (dir ks) name in
  validateName name = None
  ∧ ∃ b f1 f2,
      Bytes k = LOk b
      ∧ os_Create kp (fs s) = (LOk tt, f1)
      ∧ file_Write kp b f1 = (LOk tt, f2)
      ∧ fs (FSKeystore_Put ks name k s).2 = file_Close kp f2.
Proof.
  pose proof (Put_run ks name k s) as Hput. cbv zeta in *. rewrite Hput. clear Hput.
  destruct (validateName name); [done|].
  destruct (Bytes k) as [b|?]; [|done].
  destruct (os_Stat _ (fs s)) as [?|err]; [done|].
  destruct (IsNotExist err); [|done].
  destruct (os_Create _ (fs s)) as [[[]|?] f1] eqn:Hc; simpl; [|done].
  destruct (file_Write _ b f1) as [[[]|?] f2] eqn:Hw; simpl; [|done].
  intros _. split; [done|]. by exists b, f1, f2.
Qed.

(** X4: on a file system where a written file reads back, the key that
    [Put] has stored under a name is the key that [Get] returns for the name
    (for a key whose encoding decodes to it). *)
Theorem Put_then_Get
    (ks : FSKeystore) (name : string) (k : PrivKey) (s : storage) :
  written_file_reads_back →
  key_decodes k →
  (FSKeystore_Put ks name k s).1 = Ok tt →
  (FSKeystore_Get ks name (FSKeystore_Put ks name k s).2).1 = Ok k.
Proof.
  intros Hfs Hkey Hput.
  destruct (Put_Ok_inv ks name k s Hput) as (Hv & b & f1 & f2 & Hb & Hc & Hw & Hfs').
  destruct (Hfs _ _ _ _ _ Hc Hw) as [Hread _].
  unfold FSKeystore_Get. rewrite Hv.
  unfold bind, sys_read, pure_call; simpl.
  rewrite Hfs', Hread. simpl. by rewrite (Hkey b Hb).
Qed.

(** X5: on such a file system, after a [Put] that returned no error [Has]
    reports the key, and another [Put] under the name is refused with
    [ErrKeyExists] and leaves the file as it is. *)
Theorem Put_then_Has_and_Put
    (ks : FSKeystore) (name : string) (k k' : PrivKey) (b' : bytes) (s : storage) :
  written_file_reads_back →
  (FSKeystore_Put ks name k s).1 = Ok tt →
  Bytes k' = LOk b' →
  (FSKeystore_Has ks name (FSKeystore_Put ks name k s).2).1 = Ok true
  ∧ (FSKeystore_Put ks name k' (FSKeystore_Put ks name k s).2).1 = Err ErrKeyExists
  ∧ fs (FSKeystore_Put ks name k' (FSKeystore_Put ks name k s).2).2
    = fs (FSKeystore_Put ks name k s).2.
Proof.
  intros Hfs Hput Hb'.
  destruct (Put_Ok_inv ks name k s Hput) as (Hv & b & f1 & f2 & Hb & Hc & Hw & Hfs').
  destruct (Hfs _ _ _ _ _ Hc Hw) as [_ Hstat].
  pose proof (Put_run ks name k' (FSKeystore_Put ks name k s).2) as Hput'.
  pose proof (Has_run ks name (FSKeystore_Put ks name k s).2) as Hhas.
  cbv zeta in *. rewrite Hput', Hhas, Hv, Hb', Hfs', Hstat. done.
Qed.

(** X6: on a file system where a removed file is gone, after a [Delete]
    that returned no error [Get] returns [ErrNoSuchKey] for the name and
    [Has] reports no key. *)
Theorem Delete_then_Get
    (ks : FSKeystore) (name : string) (s : storage) :
  removed_file_is_gone →
  (FSKeystore_Delete ks name s).1 = Ok tt →
  (FSKeystore_Get ks name (FSKeystore_Delete ks name s).2).1 = Err ErrNoSuchKey
  ∧ (FSKeystore_Has ks name (FSKeystore_Delete ks name s).2).1 = Ok false.
Proof.
  intros Hfs. rewrite Has_run. unfold FSKeystore_Delete, FSKeystore_Get.
  destruct (validateName name) eqn:Hv; [done|].
  unfold bind, sys_write, sys_read, pure_call, fail, lift; simpl.
  destruct (os_Remove _ (fs s)) as [[[]|?] f'] eqn:Hrm; simpl; [|done].
  intros _. destruct (Hfs _ _ _ Hrm) as [(e1 & Hread & Hn1) (e2 & Hstat & Hn2)].
  rewrite Hread, Hstat. simpl. by rewrite Hn1, Hn2.
Qed.

(** X7: a key that [GetById] returns has the wanted identity: it is the key
    read under one of the names the directory lists. *)
Theorem GetById_sound
    (ks : FSKeystore) (want : ID) (s : storage) (sk : PrivKey) :
  (FSKeystore_GetById ks want s).1 = Ok sk →
  IDFromPrivateKey sk = LOk want
  ∧ ∃ names name,
      listed ks (fs s) names ∧ name ∈ names
      ∧ (FSKeystore_Get ks name s).1 = Ok sk.
Proof.
  unfold FSKeystore_GetById, FSKeystore_List, bind, sys_read, pure_call, fail; simpl.
  destruct (os_Open (dir ks) (fs s)) as [[]|?] eqn:Hopen; simpl; [|done].
  destruct (file_Readdirnames (dir ks) (fs s)) as [names|?] eqn:Hnames; simpl; [|done].
  intros (name & Hin & Hrk)%GetById_loop_sound. simpl in Hrk.
  unfold read_key in Hrk.
  destruct (Get_reads_only ks name s) as [_ Hres].
  rewrite <- Hres in Hrk.
  destruct (FSKeystore_Get ks name s).1 as [sk'|?|] eqn:Hget; [|done..].
  destruct (IDFromPrivateKey sk') as [id|?] eqn:Hid; [|done].
  injection Hrk as -> ->. split; [done|]. by exists names, name.
Qed.

(** X8: [Has], [Get], [List] and [GetById] leave the file system as it is:
    the calls they make are calls that only read. *)
Theorem lookups_only_read
    (ks : FSKeystore) (name : string) (want : ID) (s : storage) :
  only_read s (FSKeystore_Has ks name s).2
  ∧ only_read s (FSKeystore_Get ks name s).2
  ∧ only_read s (FSKeystore_List ks s).2
  ∧ only_read s (FSKeystore_GetById ks want s).2.
Proof.
  split; [|split; [apply Get_only_reads | split; [apply List_only_reads|]]].
  - rewrite Has_run. split; [done|]. eexists. split; [done|]. by repeat constructor.
  - unfold FSKeystore_GetById, bind.
    pose proof (List_only_reads ks s) as Hlist.
    destruct (FSKeystore_List ks s) as [[names|?|] s']; simpl in *; [|done..].
    eapply only_read_trans; [done | apply GetById_loop_only_reads].
Qed.

(** X9: [NewFSKeystore] makes the directory exactly when [Stat] reports that
    it does not exist; a store that it returns is the store of the directory
    asked for, and when the directory was there the file system is left as
    it is. *)
Theorem NewFSKeystore_makes_missing_directory (d : string) (s : storage) :
  (SysMkdir d ∈ new_calls s (NewFSKeystore d s).2 ↔
     ∃ err, os_Stat d (fs s) = LErr err ∧ IsNotExist err = true)
  ∧ (∀ ks, (NewFSKeystore d s).1 = Ok ks → dir ks = d)
  ∧ (os_Stat d (fs s) = LOk tt →
     (NewFSKeystore d s).1 = Ok {| dir := d |} ∧ fs (NewFSKeystore d s).2 = fs s)
  ∧ (∀ err, os_Stat d (fs s) = LErr err → IsNotExist err = false →
     (NewFSKeystore d s).1 = Err (Ext err) ∧ fs (NewFSKeystore d s).2 = fs s).
Proof.
  unfold NewFSKeystore, bind, sys_read, sys_write, fail, ret; simpl.
  destruct (os_Stat d (fs s)) as [[]|err] eqn:Hstat; simpl.
  - rewrite (new_calls_app s _ [SysStat d]) by done.
    split; [|by repeat split; try intros ? [= <-]].
    split; [intros Hin; set_unfold; naive_solver | by intros (? & ? & _)].
  - destruct (IsNotExist err) eqn:Hne; simpl.
    + destruct (os_Mkdir d (fs s)) as [[[]|err'] f']; simpl.
      all: rewrite (new_calls_app s _ [SysStat d; SysMkdir d])
        by (cbn; by rewrite <- app_assoc).
      all: split; [split; [eauto | intros _; set_unfold; naive_solver]|].
      all: split; [by intros ? [= <-]|]. 
      all: split; [done|]. all: intros ? [= <-]; congruence.
    + rewrite (new_calls_app s _ [SysStat d]) by done.
      split; [split; [intros Hin; set_unfold; naive_solver
                     | intros (? & [= <-] & ?); congruence]|].
      split; [done|]. split; [done|]. by intros ? [= <-] _.
Qed.

End KeystoreFacts.

(** * Properties of package [republisher] *)

Section RepublisherFacts.
Context `{Deps} {K : Type} `{!keystore.Keystore K}.
Import republisher.

Local Abbreviation world := (@republisher.world _ _ K).

(** The case analysis of a monadic computation, in program order: the
    scrutinee at the head of the left-hand side is destructed. *)
Ltac head_scrutinee s :=
  lazymatch s with
  | match ?s' with _ => _ end => head_scrutinee s'
  | (match ?s' with _ => _ end) _ => head_scrutinee s'
  | _ => s
  end.

Ltac step :=
  lazymatch goal with
  | |- ?lhs = _ → _ =>
      let s := head_scrutinee lhs in
      tryif constr_eq s lhs then fail else (destruct s eqn:?; cbn)
  end.

Ltac run_entry :=
  unfold republishEntry, getLastVal, ks_GetById, rp_ds_Get, Now,
    PutRecordToRouting, attempt, bind, ret, fail, emit, get_rp, set_rp, panic,
    keystore.pure_call, lift; cbn;
  repeat step; intros [= <- <-]; simplify_eq.

Ltac use_eqs :=
  repeat match goal with
         | Heq : ?t = _ |- context [?t] => progress (rewrite Heq); simpl
         end.

Ltac unfold_run :=
  unfold cached, republishEntry, getLastVal, ks_GetById, rp_ds_Get, Now,
    PutRecordToRouting, attempt, bind, ret, fail, emit, get_rp, set_rp, panic,
    keystore.pure_call, lift in *; simpl in *.

(** What [getLastVal] returns depends on the datastore alone. *)
Lemma getLastVal_ds (k : string) (w1 w2 : world) :
  ds (rp w1) = ds (rp w2) → (getLastVal k w1).1 = (getLastVal k w2).1.
Proof.
  intros Hds. unfold getLastVal, rp_ds_Get, bind, ret, fail, emit, get_rp, panic,
    keystore.pure_call, lift; simpl.
  rewrite Hds. repeat case_match; simplify_eq/=; done.
Qed.

Lemma cached_same_config (w w' : world) id p S :
  same_config w w' → cached w' id p S ↔ cached w id p S.
Proof.
  intros (Hds & _). unfold cached. by rewrite (getLastVal_ds _ w' w).
Qed.

(** [getLastVal] gives [errNoEntry] exactly when the datastore's [Get]
    returns an error, whatever the error. *)
Lemma getLastVal_NoEntry_iff (k : string) (w : world) :
  (getLastVal k w).1 = Err errNoEntry ↔
  ∃ err, ds_Get (dshelp_NewKeyFromBinary (list_byte_of_string k)) (ds (rp w)) = LErr err.
Proof.
  unfold getLastVal, rp_ds_Get, bind, ret, fail, emit, get_rp, panic,
    keystore.pure_call, lift; simpl.
  repeat case_match; simplify_eq/=; split; try done; eauto.
  all: intros [err' Herr']; congruence.
Qed.

(** One run of the loop body: what it leaves alone and which events it adds. *)
Lemma republishEntry_run (id : ID) (w w' : world) (x : res unit) :
  republishEntry id w = (x, w') →
  same_config w w'
  ∧ ∃ evs,
      trace w' = (trace w ++ evs)%list
      ∧ Forall (λ e, is_lock e = false) evs
      ∧ (∀ id', EvGetById id' ∈ evs →
           id' = id ∧ IDFromPrivateKey (self (rp w)) ≠ LOk id)
      ∧ (∀ priv p seq eol id', EvPut priv p seq eol id' ∈ evs →
           id' = id ∧ cached w id p seq
           ∧ (IDFromPrivateKey (self (rp w)) = LOk id → priv = self (rp w)))
      ∧ expiry_from_clock (RecordLifetime (rp w)) evs
      ∧ (x = Ok tt → ∀ p S, cached w id p S →
           ∃ priv eol, EvPut priv p S eol id ∈ evs).
Proof.
  run_entry.
  all: (split; [done|]).
  all: rewrite <- ?app_assoc; simpl; eexists;
    (split; [first [reflexivity | symmetry; apply app_nil_r]|]).
  all: split; [repeat constructor|].
  all: split; [intros id' Hin; set_unfold; naive_solver|].
  all: split; [intros priv p seq eol id' Hin; set_unfold; destruct_or?; simplify_eq;
               try done; repeat split; try done; try congruence;
               unfold_run; use_eqs; try done|].
  all: split.
  all: try (unfold expiry_from_clock; intros pre priv p seq eol id' post Heq;
            repeat (destruct pre as [|? pre]; simplify_eq/=);
            first [ by eexists [], _ | by eexists [_], _ | by eexists [_; _], _
                  | by eexists [_; _; _], _ ]).
  all: intros Hok p S Hc; simplify_eq;
            unfold_run; revert Hc; use_eqs; intros; simplify_eq/=;
            try congruence; do 2 eexists;
            repeat first [apply list_elem_of_here | apply list_elem_of_further].
Qed.


Lemma new_events_app (w w' : world) (evs : list event) :
  trace w' = (trace w ++ evs)%list → new_events w w' = evs.
Proof. intros Ht. unfold new_events. rewrite Ht. apply drop_app_length. Qed.

Lemma same_config_refl (w : world) : same_config w w.
Proof. by repeat split. Qed.

Lemma same_config_trans (w1 w2 w3 : world) :
  same_config w1 w2 → same_config w2 w3 → same_config w1 w3.
Proof. unfold same_config. intros (?&?&?&?&?) (?&?&?&?&?). repeat split; congruence. Qed.

Lemma expiry_from_clock_app (L : time.Duration) (a b : list event) :
  expiry_from_clock L a → expiry_from_clock L b → expiry_from_clock L (a ++ b).
Proof.
  intros Ha Hb pre priv p seq eol id post Heq.
  apply app_eq_app in Heq as [k [[-> Hk] | [-> Hk]]].
  - destruct k as [|e k]; simpl in Hk.
    + destruct (Hb [] priv p seq eol id post) as (pre' & t & Hnil & _); [done|].
      by destruct pre'.
    + injection Hk as <- ->. by apply (Ha pre priv p seq eol id k).
  - destruct (Hb k priv p seq eol id post Hk) as (pre' & t & -> & ->).
    exists (a ++ pre')%list, t. by rewrite app_assoc.
Qed.

Lemma range_entries_cons (id : ID) (order : list ID) (w : world) :
  range_entries (id :: order) w =
    match republishEntry id w with
    | (Ok _, w1) => range_entries order w1
    | (Err err, w1) => (Err err, w1)
    | (Panic, w1) => (Panic, w1)
    end.
Proof. reflexivity. Qed.

Lemma range_entries_app (o1 o2 : list ID) (w : world) :
  range_entries (o1 ++ o2) w =
    match range_entries o1 w with
    | (Ok _, w1) => range_entries o2 w1
    | (Err err, w1) => (Err err, w1)
    | (Panic, w1) => (Panic, w1)
    end.
Proof.
  revert w. induction o1 as [|id o1 IH]; intros w; [done|].
  simpl app. rewrite !range_entries_cons.
  destruct (republishEntry id w) as [[[]|err|] w1]; [apply IH | done..].
Qed.

(** A pass: what it leaves alone and which events it adds. *)
Lemma range_entries_run (order : list ID) (w w' : world) (x : res unit) :
  range_entries order w = (x, w') →
  same_config w w'
  ∧ ∃ evs,
      trace w' = (trace w ++ evs)%list
      ∧ Forall (λ e, is_lock e = false) evs
      ∧ (∀ id, EvGetById id ∈ evs →
           id ∈ order ∧ IDFromPrivateKey (self (rp w)) ≠ LOk id)
      ∧ (∀ priv p seq eol id, EvPut priv p seq eol id ∈ evs →
           id ∈ order ∧ cached w id p seq
           ∧ (IDFromPrivateKey (self (rp w)) = LOk id → priv = self (rp w)))
      ∧ expiry_from_clock (RecordLifetime (rp w)) evs
      ∧ (x = Ok tt → ∀ id p S, id ∈ order → cached w id p S →
           ∃ priv eol, EvPut priv p S eol id ∈ evs).
Proof.
  revert w. induction order as [|id order IH]; intros w.
  { intros [= <- <-]. split; [apply same_config_refl|].
    exists []. split; [by rewrite app_nil_r|].
    split; [done|].
    split; [intros ? Hin; by apply elem_of_nil in Hin|].
    split; [intros ????? Hin; by apply elem_of_nil in Hin|].
    split; [intros pre ?????? Heq; by destruct pre|].
    intros _ ??? Hin. by apply elem_of_nil in Hin. }
  rewrite range_entries_cons.
  destruct (republishEntry id w) as [x1 w1] eqn:Hentry.
  apply republishEntry_run in Hentry
    as (Hc1 & e1 & Ht1 & Hlock1 & Hget1 & Hput1 & Hexp1 & Hex1).
  assert (Hstop : (x, w') = (x1, w1) → x ≠ Ok tt →
    same_config w w'
    ∧ ∃ evs,
        trace w' = (trace w ++ evs)%list
        ∧ Forall (λ e, is_lock e = false) evs
        ∧ (∀ id0, EvGetById id0 ∈ evs →
             id0 ∈ id :: order ∧ IDFromPrivateKey (self (rp w)) ≠ LOk id0)
        ∧ (∀ priv p seq eol id0, EvPut priv p seq eol id0 ∈ evs →
             id0 ∈ id :: order ∧ cached w id0 p seq
             ∧ (IDFromPrivateKey (self (rp w)) = LOk id0 → priv = self (rp w)))
        ∧ expiry_from_clock (RecordLifetime (rp w)) evs
        ∧ (x = Ok tt → ∀ id0 p S, id0 ∈ id :: order → cached w id0 p S →
             ∃ priv eol, EvPut priv p S eol id0 ∈ evs)).
  { intros [= -> ->] Hx. split; [done|]. exists e1.
    split; [done|]. split; [done|].
    split; [intros id0 Hin; apply Hget1 in Hin as [-> ?];
            split; [apply list_elem_of_here | done]|].
    split; [intros priv p seq eol id0 Hin; apply Hput1 in Hin as (-> & ? & ?);
            split; [apply list_elem_of_here | done]|].
    split; [done|]. intros Hok. done. }
  destruct x1 as [[]|err|]; [|intros [= <- <-]; by apply Hstop..].
  intros Hrest. apply IH in Hrest
    as (Hc2 & e2 & Ht2 & Hlock2 & Hget2 & Hput2 & Hexp2 & Hex2).
  pose proof Hc1 as (Hds & Hself & _ & Hlife & _).
  split; [by eapply same_config_trans|].
  exists (e1 ++ e2)%list. rewrite Ht2, Ht1, app_assoc. split; [done|].
  split; [by apply Forall_app|].
  split; [|split; [|split; [|]]].
  - intros id0 [Hin | Hin]%elem_of_app.
    + apply Hget1 in Hin as [-> ?]. split; [apply list_elem_of_here | done].
    + apply Hget2 in Hin as [? ?]. rewrite Hself in *.
      split; [by apply list_elem_of_further | done].
  - intros priv p seq eol id0 [Hin | Hin]%elem_of_app.
    + apply Hput1 in Hin as (-> & ? & ?). split; [apply list_elem_of_here | done].
    + apply Hput2 in Hin as (? & Hc & Hp). rewrite Hself in Hp.
      split; [by apply list_elem_of_further|].
      split; [by apply (cached_same_config w w1) | done].
  - apply expiry_from_clock_app; [done | by rewrite <- Hlife].
  - intros Hx id0 p S [-> | Hin]%elem_of_cons Hc.
    + destruct (Hex1 eq_refl p S Hc) as (priv & eol & Hin).
      exists priv, eol. apply elem_of_app. by left.
    + destruct (Hex2 Hx id0 p S Hin) as (priv & eol & Hin').
      { by apply (cached_same_config w w1). }
      exists priv, eol. apply elem_of_app. by right.
Qed.


(** When the signing key of [id] cannot be resolved, the loop body returns
    the error at once: at most the lookup itself has happened. *)
Lemma republishEntry_key_failure (id : ID) (w : world) (err : error) :
  key_resolution_fails w id err →
  (republishEntry id w).1 = Err err
  ∧ r (rp (republishEntry id w).2) = r (rp w)
  ∧ clock (republishEntry id w).2 = clock w
  ∧ (new_events w (republishEntry id w).2 = [EvDebugf id]
     ∨ new_events w (republishEntry id w).2 = [EvDebugf id; EvGetById id]).
Proof.
  unfold key_resolution_fails, republishEntry, ks_GetById, bind, get_rp, emit,
    keystore.pure_call, lift, ret. cbn.
  destruct (IDFromPrivateKey (self (rp w))) as [selfId|e]; cbn.
  - intros [Hne Hget]. rewrite decide_False by done. cbn.
    destruct (keystore.GetById id (ks (rp w))) as [x ks'].
    cbn in Hget. subst x. cbn. repeat split. right.
    apply new_events_app. cbn. by rewrite <- app_assoc.
  - intros ->. repeat split. left. by apply new_events_app.
Qed.

(** The outcome of the loop body for an identity whose record cannot be
    loaded: the ways to end before the load apart, [errNoEntry] makes it go
    on to the next identity and any other error is returned; in no case is a
    record pushed. *)
Lemma republishEntry_load_failure (id : ID) (w w' : world) (x : res unit) (err : error) :
  republishEntry id w = (x, w') →
  (getLastVal (namesys_IpnsKeysForID id).2 w).1 = Err err →
  Forall (λ e, is_put e = false) (new_events w w')
  ∧ ((if decide (err = errNoEntry) then x = Ok tt else x = Err err)
     ∨ (∃ err', key_resolution_fails w id err' ∧ x = Err err')
     ∨ x = Panic).
Proof.
  intros Hrun Hlast. revert Hrun.
  unfold key_resolution_fails.
  unfold getLastVal, rp_ds_Get, bind, ret, fail, emit, get_rp, panic,
    keystore.pure_call, lift in Hlast; cbn in Hlast.
  run_entry.
  all: cbn in Hlast; simplify_eq.
  all: (split; [unfold new_events; cbn; rewrite <- ?app_assoc;
                rewrite drop_app_length; repeat constructor|]).
  all: try (left; by rewrite ?decide_True, ?decide_False by done).
  all: try (right; right; done).
  all: try (right; left; eexists; split; [|reflexivity]; use_eqs; done).
Qed.

(** The loop body logs the identity it is run for, and no other. *)
Lemma republishEntry_debugf (id id' : ID) (w : world) :
  EvDebugf id' ∈ new_events w (republishEntry id w).2 ↔ id' = id.
Proof.
  destruct (republishEntry id w) as [x w'] eqn:Hrun. revert Hrun.
  run_entry.
  all: unfold new_events; cbn; rewrite <- ?app_assoc; rewrite drop_app_length.
  all: set_unfold; naive_solver.
Qed.

Lemma new_events_trans (w w1 w' : world) :
  (∃ e1, trace w1 = (trace w ++ e1)%list) →
  (∃ e2, trace w' = (trace w1 ++ e2)%list) →
  new_events w w' = (new_events w w1 ++ new_events w1 w')%list.
Proof.
  intros [e1 He1] [e2 He2].
  rewrite (new_events_app w w1 e1 He1), (new_events_app w1 w' e2 He2).
  apply new_events_app. by rewrite He2, He1, app_assoc.
Qed.

(** A pass runs the loop body for identities of its order only, and a pass
    that ends without error has run it for each of them. *)
Lemma range_entries_debugf (order : list ID) (w w' : world) (x : res unit) :
  range_entries order w = (x, w') →
  (∀ id, EvDebugf id ∈ new_events w w' → id ∈ order)
  ∧ (x = Ok tt → ∀ id, id ∈ order → EvDebugf id ∈ new_events w w').
Proof.
  revert w. induction order as [|id0 order IH]; intros w.
  { intros [= <- <-]. unfold new_events. rewrite drop_all. split.
    - intros id Hin. by apply elem_of_nil in Hin.
    - intros _ id Hin. by apply elem_of_nil in Hin. }
  rewrite range_entries_cons.
  pose proof (republishEntry_debugf id0) as Hdbg.
  destruct (republishEntry id0 w) as [x1 w1] eqn:Hentry.
  pose proof (republishEntry_run _ _ _ _ Hentry) as (_ & e1 & Ht1 & _).
  assert (Hdbg1 : ∀ id, EvDebugf id ∈ new_events w w1 ↔ id = id0).
  { intros id. specialize (Hdbg id w). by rewrite Hentry in Hdbg. }
  destruct x1 as [[]|err|].
  - intros Hrest.
    pose proof (range_entries_run _ _ _ _ Hrest) as (_ & e2 & Ht2 & _).
    apply IH in Hrest as [Hin Hall].
    rewrite (new_events_trans w w1 w') by eauto. split.
    + intros id [Hid | Hid]%elem_of_app.
      * apply Hdbg1 in Hid as ->. apply list_elem_of_here.
      * apply list_elem_of_further. by apply Hin.
    + intros Hx id [-> | Hid]%elem_of_cons; apply elem_of_app.
      * left. by apply Hdbg1.
      * right. by apply Hall.
  - intros [= <- <-]. split; [|done].
    intros id ->%Hdbg1. apply list_elem_of_here.
  - intros [= <- <-]. split; [|done].
    intros id ->%Hdbg1. apply list_elem_of_here.
Qed.

(** A pass that ends without error has run the loop body for exactly the
    identities of the watch set. *)
Lemma pass_visits_watch_set (order : list ID) (w : world) (id : ID) :
  range_order w order →
  (republishEntries order w).1 = Ok tt →
  EvDebugf id ∈ new_events w (republishEntries order w).2 ↔ id ∈ entries (rp w).
Proof.
  unfold range_order, republishEntries. intros Horder Hok.
  destruct (range_entries order w) as [x w'] eqn:Hrun. simpl in *. subst x.
  apply range_entries_debugf in Hrun as [Hin Hall].
  rewrite <- elem_of_elements, <- Horder. split; [apply Hin | by apply Hall].
Qed.

(** The pass never touches the lock of the watch set. *)
Lemma republishEntries_takes_no_lock (order : list ID) (w : world) :
  Forall (λ e, is_lock e = false) (new_events w (republishEntries order w).2).
Proof.
  destruct (republishEntries order w) as [x w'] eqn:Hrun.
  apply range_entries_run in Hrun as (_ & evs & Ht & Hlock & _).
  simpl. by rewrite (new_events_app _ _ _ Ht).
Qed.

Lemma Run_loop_entries (wakes : list wake) (w : world) :
  entries (rp (Run_loop wakes w).2) = entries (rp w).
Proof.
  revert w. induction wakes as [|[order|] wakes IH]; intros w; [done| |done].
  simpl. unfold attempt.
  destruct (republishEntries order w) as [x w1] eqn:Hrun.
  apply range_entries_run in Hrun as ((_ & _ & _ & _ & Hent) & _).
  destruct x as [[]|err|]; [| |done].
  - by rewrite IH.
  - by rewrite IH.
Qed.






(** C2: when the pass has gone through the identities [pre] without error
    and the signing key of the next identity [A] cannot be resolved, the pass
    returns that error; after the pass over [pre] nothing has happened but
    the debug log line for [A] and, at most, the failed lookup for [A]: the routing store is the one the pass
    over [pre] left, and the pass is the same whatever identities [post]
    come after [A]. *)
Theorem key_failure_aborts_pass
    (pre : list ID) (A : ID) (post : list ID) (w : world) (err : error) :
  (republishEntries pre w).1 = Ok tt →
  key_resolution_fails (republishEntries pre w).2 A err →
  (republishEntries (pre ++ A :: post) w).1 = Err err
  ∧ republishEntries (pre ++ A :: post) w = republishEntries (pre ++ [A]) w
  ∧ r (rp (republishEntries (pre ++ A :: post) w).2)
    = r (rp (republishEntries pre w).2)
  ∧ (new_events (republishEntries pre w).2
       (republishEntries (pre ++ A :: post) w).2 = [EvDebugf A]
     ∨ new_events (republishEntries pre w).2
         (republishEntries (pre ++ A :: post) w).2 = [EvDebugf A; EvGetById A]).
Proof.
  unfold republishEntries. intros Hpre Hfail.
  rewrite !range_entries_app.
  destruct (range_entries pre w) as [x w1]. simpl in Hpre, Hfail. subst x.
  rewrite !range_entries_cons.
  destruct (republishEntry_key_failure A w1 err Hfail) as (Hres & Hr & _ & Hev).
  destruct (republishEntry A w1) as [x w2]. simpl in *. subst x. done.
Qed.

(** C4: when the identity of the process is [selfId], a pass makes no key
    store lookup for [selfId] and pushes the record of [selfId] signed with
    the process's own key; every lookup it makes is for a visited identity
    other than [selfId]. *)
Theorem own_identity_skips_keystore (order : list ID) (w : world) (selfId : ID) :
  IDFromPrivateKey (self (rp w)) = LOk selfId →
  EvGetById selfId ∉ new_events w (republishEntries order w).2
  ∧ (∀ priv p seq eol,
       EvPut priv p seq eol selfId ∈ new_events w (republishEntries order w).2 →
       priv = self (rp w))
  ∧ (∀ id, EvGetById id ∈ new_events w (republishEntries order w).2 →
       id ≠ selfId ∧ id ∈ order).
Proof.
  intros Hself. destruct (republishEntries order w) as [x w'] eqn:Hrun.
  apply range_entries_run in Hrun as (_ & evs & Ht & _ & Hget & Hput & _).
  simpl. rewrite (new_events_app _ _ _ Ht). split; [|split].
  - intros Hin. by apply Hget in Hin as [_ Hne].
  - intros priv p seq eol Hin. apply Hput in Hin as (_ & _ & Hp). auto.
  - intros id Hin. apply Hget in Hin as [Hin Hne]. split; [congruence | done].
Qed.

(** C5 (amended): every record a pass pushes comes right after a reading
    [t] of the clock and carries the expiry [t] plus the configured record
    lifetime; the expiry is strictly later than [t] when the lifetime is
    positive.  A new republisher has the interval of 4 hours and the
    lifetime of 24 hours, which is positive. *)
Theorem renewal_expiry_is_now_plus_lifetime
    (order : list ID) (w : world)
    (r0 : ValueStore) (ds0 : Datastore) (self0 : PrivKey) (ks0 : K) :
  (∀ pre priv p seq eol id post,
     new_events w (republishEntries order w).2
       = (pre ++ EvPut priv p seq eol id :: post)%list →
     ∃ pre' t, pre = (pre' ++ [EvNow t])%list
               ∧ eol = time.Add t (RecordLifetime (rp w))
               ∧ (0 < RecordLifetime (rp w) → t < eol))
  ∧ RecordLifetime (NewRepublisher r0 ds0 self0 ks0) = 24 * time.Hour
  ∧ Interval (NewRepublisher r0 ds0 self0 ks0) = 4 * time.Hour
  ∧ 0 < RecordLifetime (NewRepublisher r0 ds0 self0 ks0).
Proof.
  split; [|by repeat split].
  destruct (republishEntries order w) as [x w'] eqn:Hrun.
  apply range_entries_run in Hrun as (_ & evs & Ht & _ & _ & _ & Hexp & _).
  simpl. rewrite (new_events_app _ _ _ Ht).
  intros pre priv p seq eol id post Heq.
  destruct (Hexp pre priv p seq eol id post Heq) as (pre' & t & -> & ->).
  exists pre', t. unfold time.Add. repeat split. lia.
Qed.

(** C7: [AddName] never fails and makes the watch set the old one with the
    identity added: nothing changes when the identity was already there, the
    set grows by exactly one member when it was not, and registering twice is
    registering once.  A watch set lists no identity twice, so a pass visits
    no identity twice, and neither a pass nor [Run] changes its members. *)
Theorem AddName_idempotent
    (id : ID) (w : world) (order : list ID) (wakes : list wake) :
  (AddName id w).1 = Ok tt
  ∧ entries (rp (AddName id w).2) = {[id]} ∪ entries (rp w)
  ∧ (id ∈ entries (rp w) → entries (rp (AddName id w).2) = entries (rp w))
  ∧ (id ∉ entries (rp w) →
     size (entries (rp (AddName id w).2)) = Datatypes.S (size (entries (rp w))))
  ∧ entries (rp (AddName id (AddName id w).2).2) = entries (rp (AddName id w).2)
  ∧ NoDup (elements (entries (rp (AddName id w).2)))
  ∧ (range_order (AddName id w).2 order → NoDup order)
  ∧ entries (rp w) ⊆ entries (rp (AddName id w).2)
  ∧ entries (rp (republishEntries order w).2) = entries (rp w)
  ∧ entries (rp (Run wakes w).2) = entries (rp w).
Proof.
  unfold AddName, bind, emit, get_rp, set_rp. cbn.
  split; [done|]. split; [done|].
  split; [intros Hin; set_solver|].
  split; [intros Hnin; rewrite size_union by set_solver; by rewrite size_singleton|].
  split; [set_solver|].
  split; [apply NoDup_elements|].
  split; [unfold range_order; intros ->; apply NoDup_elements|].
  split; [set_solver|].
  split.
  - destruct (republishEntries order w) as [x w'] eqn:Hrun.
    by apply range_entries_run in Hrun as ((_ & _ & _ & _ & Hent) & _).
  - unfold Run. case_decide; [done|].
    pose proof (Run_loop_entries wakes
      {| rp := rp w; trace := trace w ++ [EvNewTicker (Interval (rp w))];
         clock := clock w |}) as Hent.
    by destruct (Run_loop wakes _) as [[] w'].
Qed.


(** ** Further properties of the republisher *)

(** The loop body once the signing key is resolved: what it returns and
    pushes is decided by the stored record and by the routing store. *)
Lemma republishEntry_resolved
    (id : ID) (w w' : world) (x : res unit) (priv : PrivKey) :
  key_resolves w id priv →
  republishEntry id w = (x, w') →
  match ds_Get (record_key id) (ds (rp w)) with
  | LErr _ =>
      x = Ok tt ∧ r (rp w') = r (rp w) ∧ List.filter is_put (new_events w w') = []
  | LOk (DsOther _) =>
      x = Panic ∧ r (rp w') = r (rp w) ∧ List.filter is_put (new_events w w') = []
  | LOk (DsBytes val) =>
      match proto_Unmarshal_Record val with
      | LErr e =>
          x = Err (Ext e) ∧ r (rp w') = r (rp w)
          ∧ List.filter is_put (new_events w w') = []
      | LOk rec =>
          match proto_Unmarshal_IpnsEntry (recpb.GetValue rec) with
          | LErr e =>
              x = Err (Ext e) ∧ r (rp w') = r (rp w)
              ∧ List.filter is_put (new_events w w') = []
          | LOk ent =>
              let p := string_of_list_byte (pb.Value ent) in
              let eol := time.Add (time_Now (clock w)) (RecordLifetime (rp w)) in
              let put := namesys_PutRecordToRouting priv p (pb.GetSequence ent)
                           eol id (r (rp w)) in
              x = (match put.1 with LOk _ => Ok tt | LErr e => Err (Ext e) end)
              ∧ r (rp w') = put.2
              ∧ List.filter is_put (new_events w w')
                = [EvPut priv p (pb.GetSequence ent) eol id]
              ∧ (∀ e, put.1 = LErr e →
                 last (new_events w w') = Some (EvPrintln (Ext e)))
          end
      end
  end.
Proof.
  unfold key_resolves, record_key. intros Hkey. revert Hkey.
  destruct (IDFromPrivateKey (self (rp w))) as [selfId|?] eqn:Hself; [|done].
  intros Hkey Hrun. revert Hrun Hkey.
  run_entry.
  all: intros Hkey; try rewrite decide_True in Hkey by done;
       try rewrite decide_False in Hkey by done; cbn in Hkey; simplify_eq.
  all: unfold new_events; cbn; rewrite <- ?app_assoc; rewrite drop_app_length; cbn.
  all: try match goal with H : namesys_PutRecordToRouting _ _ _ _ _ _ = _ |- _ =>
         rewrite H end; cbn.
  all: repeat split; try done.
  all: intros ? [= <-]; done.
Qed.

Lemma pass_stops_at (pre : list ID) (A : ID) (post : list ID) (w : world) :
  (range_entries pre w).1 = Ok tt →
  (republishEntry A (range_entries pre w).2).1 ≠ Ok tt →
  range_entries (pre ++ A :: post) w = republishEntry A (range_entries pre w).2.
Proof.
  intros Hpre Hstop. rewrite range_entries_app.
  destruct (range_entries pre w) as [x w1]. cbn [fst snd] in *. subst x.
  rewrite range_entries_cons.
  destruct (republishEntry A w1) as [[[]|?|] w2]; cbn [fst snd] in *; [|done..].
  by destruct Hstop.
Qed.

Lemma pass_goes_on_after (pre : list ID) (A : ID) (post : list ID) (w : world) :
  (range_entries pre w).1 = Ok tt →
  (republishEntry A (range_entries pre w).2).1 = Ok tt →
  range_entries (pre ++ A :: post) w
  = range_entries post (republishEntry A (range_entries pre w).2).2.
Proof.
  intros Hpre Hgo. rewrite range_entries_app.
  destruct (range_entries pre w) as [x w1]. cbn [fst snd] in *. subst x.
  rewrite range_entries_cons.
  destruct (republishEntry A w1) as [x2 w2]. cbn [fst snd] in *. by subst x2.
Qed.

(** X10: when the pass has gone through the identities [pre] without error
    and, for the next identity [A], the key resolves and the record decodes
    but the push to the routing store fails, the pass returns that error.
    The record was handed to the routing store once, the error was printed
    last, and the pass is the same whatever identities come after [A]. *)
Theorem push_failure_aborts_pass
    (pre : list ID) (A : ID) (post : list ID) (w : world)
    (priv : PrivKey) (p : Path) (S : Z) (e : exterr) :
  (republishEntries pre w).1 = Ok tt →
  key_resolves (republishEntries pre w).2 A priv →
  cached (republishEntries pre w).2 A p S →
  (namesys_PutRecordToRouting priv p S
     (time.Add (time_Now (clock (republishEntries pre w).2))
        (RecordLifetime (rp (republishEntries pre w).2)))
     A (r (rp (republishEntries pre w).2))).1 = LErr e →
  (republishEntries (pre ++ A :: post) w).1 = Err (Ext e)
  ∧ republishEntries (pre ++ A :: post) w = republishEntries (pre ++ [A]) w
  ∧ List.filter is_put
      (new_events (republishEntries pre w).2
         (republishEntries (pre ++ A :: post) w).2)
    = [EvPut priv p S
         (time.Add (time_Now (clock (republishEntries pre w).2))
            (RecordLifetime (rp (republishEntries pre w).2))) A]
  ∧ last (new_events (republishEntries pre w).2
            (republishEntries (pre ++ A :: post) w).2)
    = Some (EvPrintln (Ext e)).
Proof.
  unfold republishEntries, cached. intros Hpre Hkey Hc Hput.
  destruct (range_entries pre w) as [x1 w1] eqn:Hp. cbn [fst snd] in *. subst x1.
  destruct (republishEntry A w1) as [x w2] eqn:Hrun.
  pose proof (republishEntry_resolved A w1 w2 x priv Hkey Hrun) as Hres.
  revert Hc. unfold getLastVal, rp_ds_Get, bind, ret, fail, emit, get_rp, panic,
    keystore.pure_call, lift; cbn. fold (record_key A).
  destruct (ds_Get (record_key A) (ds (rp w1))) as [[val|?]|?]; cbn; [|done..].
  destruct (proto_Unmarshal_Record val) as [rec|?]; cbn; [|done].
  destruct (proto_Unmarshal_IpnsEntry (recpb.GetValue rec)) as [ent|?]; cbn; [|done].
  intros [= <- <-]. cbv zeta in Hres. rewrite Hput in Hres.
  destruct Hres as (-> & _ & Hputs & Hlast).
  assert (Hstop : ∀ post', range_entries (pre ++ A :: post') w = (Err (Ext e), w2)).
  { intros post'. rewrite pass_stops_at; rewrite Hp; cbn [fst snd]; by rewrite ?Hrun. }
  rewrite !Hstop. simpl. repeat split; [done | by apply Hlast].
Qed.

(** X11: when the pass has gone through [pre] without error and, for the
    next identity [A], the key resolves but the stored bytes do not decode,
    the pass returns the decode error; nothing is pushed for [A], the
    routing store is left as it was, and the pass is the same whatever
    identities come after [A]. *)
Theorem decode_error_aborts_pass
    (pre : list ID) (A : ID) (post : list ID) (w : world)
    (priv : PrivKey) (val : bytes) (e : exterr) :
  (republishEntries pre w).1 = Ok tt →
  key_resolves (republishEntries pre w).2 A priv →
  ds_Get (record_key A) (ds (rp (republishEntries pre w).2)) = LOk (DsBytes val) →
  decode_fails val e →
  (republishEntries (pre ++ A :: post) w).1 = Err (Ext e)
  ∧ republishEntries (pre ++ A :: post) w = republishEntries (pre ++ [A]) w
  ∧ r (rp (republishEntries (pre ++ A :: post) w).2)
    = r (rp (republishEntries pre w).2)
  ∧ List.filter is_put
      (new_events (republishEntries pre w).2
         (republishEntries (pre ++ A :: post) w).2) = [].
Proof.
  unfold republishEntries, decode_fails. intros Hpre Hkey Hget Hdec.
  destruct (range_entries pre w) as [x1 w1] eqn:Hp. cbn [fst snd] in *. subst x1.
  destruct (republishEntry A w1) as [x w2] eqn:Hrun.
  pose proof (republishEntry_resolved A w1 w2 x priv Hkey Hrun) as Hres.
  rewrite Hget in Hres.
  assert (Hx : x = Err (Ext e) ∧ r (rp w2) = r (rp w1)
               ∧ List.filter is_put (new_events w1 w2) = []).
  { destruct Hdec as [Hrec | (rec & Hrec & Hent)]; rewrite Hrec in Hres; [done|].
    by rewrite Hent in Hres. }
  destruct Hx as (-> & Hr & Hputs).
  assert (Hstop : ∀ post', range_entries (pre ++ A :: post') w = (Err (Ext e), w2)).
  { intros post'. rewrite pass_stops_at; rewrite Hp; cbn [fst snd]; by rewrite ?Hrun. }
  rewrite !Hstop. done.
Qed.

(** X12: when the pass has gone through [pre] without error and, for the
    next identity [A], the key resolves but the datastore's [Get] returns an
    error, whatever it is, the pass pushes nothing for [A], leaves the
    routing store as it was and goes on with the identities after [A]. *)
Theorem missing_record_is_skipped
    (pre : list ID) (A : ID) (post : list ID) (w : world)
    (priv : PrivKey) (e : exterr) :
  (republishEntries pre w).1 = Ok tt →
  key_resolves (republishEntries pre w).2 A priv →
  ds_Get (record_key A) (ds (rp (republishEntries pre w).2)) = LErr e →
  (republishEntries (pre ++ [A]) w).1 = Ok tt
  ∧ r (rp (republishEntries (pre ++ [A]) w).2) = r (rp (republishEntries pre w).2)
  ∧ List.filter is_put
      (new_events (republishEntries pre w).2
         (republishEntries (pre ++ [A]) w).2) = []
  ∧ republishEntries (pre ++ A :: post) w
    = republishEntries post (republishEntries (pre ++ [A]) w).2.
Proof.
  unfold republishEntries. intros Hpre Hkey Hget.
  destruct (range_entries pre w) as [x1 w1] eqn:Hp. cbn [fst snd] in *. subst x1.
  destruct (republishEntry A w1) as [x w2] eqn:Hrun.
  pose proof (republishEntry_resolved A w1 w2 x priv Hkey Hrun) as Hres.
  rewrite Hget in Hres. destruct Hres as (-> & Hr & Hputs).
  assert (Hgo : ∀ post', range_entries (pre ++ A :: post') w = range_entries post' w2).
  { intros post'. rewrite pass_goes_on_after; rewrite Hp; cbn [fst snd]; by rewrite ?Hrun. }
  rewrite !Hgo. done.
Qed.

(** X13: when the value stored for the next identity [A] is not a byte
    slice, the type assertion of [getLastVal] panics: the pass panics,
    nothing is pushed for [A], and a [Run] that started this pass does not
    go on to the next wake-up. *)
Theorem stored_value_of_other_type_panics
    (pre : list ID) (A : ID) (post : list ID) (w : world)
    (priv : PrivKey) (tag : string) (wakes : list wake) :
  (republishEntries pre w).1 = Ok tt →
  key_resolves (republishEntries pre w).2 A priv →
  ds_Get (record_key A) (ds (rp (republishEntries pre w).2)) = LOk (DsOther tag) →
  (republishEntries (pre ++ A :: post) w).1 = Panic
  ∧ List.filter is_put
      (new_events (republishEntries pre w).2
         (republishEntries (pre ++ A :: post) w).2) = []
  ∧ (Run_loop (Tick (pre ++ A :: post) :: wakes) w).1 = Crashed.
Proof.
  unfold republishEntries. intros Hpre Hkey Hget.
  destruct (range_entries pre w) as [x1 w1] eqn:Hp. cbn [fst snd] in *. subst x1.
  destruct (republishEntry A w1) as [x w2] eqn:Hrun.
  pose proof (republishEntry_resolved A w1 w2 x priv Hkey Hrun) as Hres.
  rewrite Hget in Hres. destruct Hres as (-> & Hr & Hputs).
  assert (Hstop : range_entries (pre ++ A :: post) w = (Panic, w2)).
  { rewrite pass_stops_at; rewrite Hp; cbn [fst snd]; by rewrite ?Hrun. }
  simpl. unfold attempt, republishEntries. rewrite Hstop. done.
Qed.

(** X14: after a pass over the watch set that ended without error, the
    identities for which a record was pushed are exactly the watched
    identities that have a cached record that decodes. *)
Theorem successful_pass_renews_exactly_cached
    (order : list ID) (w : world) (id : ID) :
  range_order w order →
  (republishEntries order w).1 = Ok tt →
  (∃ priv p S eol,
     EvPut priv p S eol id ∈ new_events w (republishEntries order w).2)
  ↔ id ∈ entries (rp w) ∧ ∃ p S, cached w id p S.
Proof.
  unfold range_order. intros Horder Hok.
  destruct (republishEntries order w) as [x w'] eqn:Hrun. simpl in *. subst x.
  apply range_entries_run in Hrun as (_ & evs & Ht & _ & _ & Hput & _ & Hex).
  rewrite (new_events_app _ _ _ Ht), <- elem_of_elements, <- Horder. split.
  - intros (priv & p & S & eol & Hin). apply Hput in Hin as (Hin & Hc & _). eauto.
  - intros (Hin & p & S & Hc).
    destruct (Hex eq_refl id p S Hin Hc) as (priv & eol & Hev). eauto.
Qed.

Lemma filter_nil_of_false {A} (f : A → bool) (l : list A) :
  (∀ e, e ∈ l → f e = false) → List.filter f l = [].
Proof.
  induction l as [|a l IH]; intros Hf; [done|].
  simpl. rewrite (Hf a) by apply list_elem_of_here.
  apply IH. intros e He. apply Hf. by apply list_elem_of_further.
Qed.

(** The loop body pushes at most one record. *)
Lemma republishEntry_pushes_once (id id' : ID) (w w' : world) (x : res unit) :
  republishEntry id w = (x, w') →
  (length (List.filter is_put (new_events w w')) ≤ 1)%nat
  ∧ (length (List.filter (is_put_for id') (new_events w w')) ≤ 1)%nat.
Proof.
  run_entry.
  all: unfold new_events; cbn; rewrite <- ?app_assoc; rewrite drop_app_length; cbn.
  all: repeat case_bool_decide; cbn; lia.
Qed.

Lemma range_entries_push_count (order : list ID) (w w' : world) (x : res unit) :
  range_entries order w = (x, w') →
  (length (List.filter is_put (new_events w w')) ≤ length order)%nat
  ∧ (NoDup order → ∀ id,
       (length (List.filter (is_put_for id) (new_events w w')) ≤ 1)%nat).
Proof.
  revert w. induction order as [|id0 order IH]; intros w.
  { intros [= <- <-]. unfold new_events. rewrite drop_all. simpl. split; [lia|].
    intros _ _. lia. }
  rewrite range_entries_cons.
  destruct (republishEntry id0 w) as [x1 w1] eqn:Hentry.
  pose proof (republishEntry_run _ _ _ _ Hentry) as (_ & e1 & Ht1 & _ & _ & Hput1 & _).
  pose proof (λ id, republishEntry_pushes_once id0 id _ _ _ Hentry) as Hone.
  rewrite (new_events_app _ _ _ Ht1) in Hone.
  assert (Hstop : (x, w') = (x1, w1) →
    (length (List.filter is_put (new_events w w')) ≤ length (id0 :: order))%nat
    ∧ (NoDup (id0 :: order) → ∀ id,
         (length (List.filter (is_put_for id) (new_events w w')) ≤ 1)%nat)).
  { intros [= -> ->]. rewrite (new_events_app _ _ _ Ht1). split.
    - destruct (Hone id0) as [? _]. simpl. lia.
    - intros _ id. by destruct (Hone id). }
  destruct x1 as [[]|err|]; [|intros [= <- <-]; by apply Hstop..].
  intros Hrest.
  pose proof (range_entries_run _ _ _ _ Hrest) as (_ & e2 & Ht2 & _ & _ & Hput2 & _).
  apply IH in Hrest as [Hlen Hper].
  rewrite (new_events_trans w w1 w') by eauto.
  rewrite (new_events_app _ _ _ Ht1), (new_events_app _ _ _ Ht2) in *.
  rewrite !List.filter_app, !length_app. split.
  - destruct (Hone id0) as [? _]. simpl. lia.
  - intros [Hnotin Hnd]%NoDup_cons id. rewrite List.filter_app, length_app.
    destruct (decide (id = id0)) as [->|Hne].
    + rewrite (filter_nil_of_false (is_put_for id0) e2).
      * destruct (Hone id0) as [_ ?]. simpl. lia.
      * intros [] He; try done. simpl. apply bool_decide_eq_false.
        intros ->. by apply Hput2 in He as [? _].
    + rewrite (filter_nil_of_false (is_put_for id) e1).
      * specialize (Hper Hnd id). simpl. lia.
      * intros [] He; try done. simpl. apply bool_decide_eq_false.
        intros ->. by apply Hput1 in He as [? _].
Qed.

(** X15: a pass over the watch set pushes at most one record for each
    identity, and so at most as many records as the watch set has
    members. *)
Theorem one_push_per_identity (order : list ID) (w : world) (id : ID) :
  range_order w order →
  (length (List.filter (is_put_for id)
             (new_events w (republishEntries order w).2)) ≤ 1)%nat
  ∧ (length (List.filter is_put (new_events w (republishEntries order w).2))
     ≤ size (entries (rp w)))%nat.
Proof.
  unfold range_order. intros Horder.
  destruct (republishEntries order w) as [x w'] eqn:Hrun. simpl.
  apply range_entries_push_count in Hrun as [Hlen Hper]. split.
  - apply Hper. rewrite Horder. apply NoDup_elements.
  - by rewrite Horder in Hlen.
Qed.

(** X16: an identity that was registered with [AddName] and has a cached
    record is renewed by a pass over the watch set that ends without error:
    the pass pushes its record, with the cached path and sequence number. *)
Theorem registered_identity_is_renewed
    (id : ID) (w : world) (order : list ID) (p : Path) (S : Z) :
  cached w id p S →
  range_order (AddName id w).2 order →
  (republishEntries order (AddName id w).2).1 = Ok tt →
  ∃ priv eol,
    EvPut priv p S eol id
      ∈ new_events (AddName id w).2 (republishEntries order (AddName id w).2).2.
Proof.
  unfold range_order. intros Hc Horder Hok.
  assert (Hc' : cached (AddName id w).2 id p S).
  { unfold cached in *. by rewrite (getLastVal_ds _ _ w). }
  assert (Hin : id ∈ order).
  { rewrite Horder, elem_of_elements. unfold AddName, bind, emit, get_rp, set_rp.
    cbn. set_solver. }
  destruct (republishEntries order (AddName id w).2) as [x w'] eqn:Hrun.
  simpl in *. subst x.
  apply range_entries_run in Hrun as (_ & evs & Ht & _ & _ & _ & _ & Hex).
  rewrite (new_events_app _ _ _ Ht). by apply (Hex eq_refl id p S).
Qed.

(** X17: a republisher made by [NewRepublisher] watches no identity: a pass
    over its watch set does nothing and returns no error. *)
Theorem pass_of_new_republisher_does_nothing
    (r0 : ValueStore) (ds0 : Datastore) (self0 : PrivKey) (ks0 : K)
    (tr : list event) (c : nat) (order : list ID) :
  range_order {| rp := NewRepublisher r0 ds0 self0 ks0; trace := tr; clock := c |}
    order →
  republishEntries order
    {| rp := NewRepublisher r0 ds0 self0 ks0; trace := tr; clock := c |}
  = (Ok tt, {| rp := NewRepublisher r0 ds0 self0 ks0; trace := tr; clock := c |}).
Proof.
  unfold range_order. simpl. rewrite elements_empty.
  intros ->%Permutation_nil_r. done.
Qed.

Lemma Run_loop_after_Closing (pre post : list wake) (w : world) :
  Run_loop (pre ++ Closing :: post) w = Run_loop (pre ++ [Closing]) w.
Proof.
  revert w. induction pre as [|[order|] pre IH]; intros w; [done| |done].
  simpl. destruct (attempt (republishEntries order) w) as [[[?|?]|?|] w1];
    by rewrite ?IH.
Qed.

(** X18: [Run] starts no pass after the closing of the process: the
    wake-ups that come after it change nothing. *)
Theorem Run_ignores_wakes_after_Closing (pre post : list wake) (w : world) :
  Run (pre ++ Closing :: post) w = Run (pre ++ [Closing]) w.
Proof. unfold Run. by rewrite Run_loop_after_Closing. Qed.

(** The loop body has nothing to do with the ticker. *)
Lemma republishEntry_no_ticker (id : ID) (w w' : world) (x : res unit) :
  republishEntry id w = (x, w') →
  Forall (λ e, is_ticker e = false) (new_events w w').
Proof.
  run_entry.
  all: unfold new_events; cbn; rewrite <- ?app_assoc; rewrite drop_app_length.
  all: by repeat constructor.
Qed.

Lemma range_entries_no_ticker (order : list ID) (w w' : world) (x : res unit) :
  range_entries order w = (x, w') →
  Forall (λ e, is_ticker e = false) (new_events w w').
Proof.
  revert w. induction order as [|id0 order IH]; intros w.
  { intros [= <- <-]. unfold new_events. by rewrite drop_all. }
  rewrite range_entries_cons.
  destruct (republishEntry id0 w) as [x1 w1] eqn:Hentry.
  pose proof (republishEntry_run _ _ _ _ Hentry) as (_ & e1 & Ht1 & _).
  pose proof (republishEntry_no_ticker _ _ _ _ Hentry) as Hno.
  destruct x1 as [[]|err|]; [|by intros [= <- <-]..].
  intros Hrest.
  pose proof (range_entries_run _ _ _ _ Hrest) as (_ & e2 & Ht2 & _).
  rewrite (new_events_trans w w1 w') by eauto.
  apply Forall_app. split; [done | by apply IH].
Qed.

Lemma Run_loop_no_ticker (wakes : list wake) (w : world) :
  ∃ evs, trace (Run_loop wakes w).2 = (trace w ++ evs)%list
         ∧ Forall (λ e, is_ticker e = false) evs.
Proof.
  revert w. induction wakes as [|[order|] wakes IH]; intros w.
  - exists []. by rewrite app_nil_r.
  - simpl. unfold attempt.
    destruct (republishEntries order w) as [x w1] eqn:Hrun.
    pose proof (range_entries_no_ticker _ _ _ _ Hrun) as Hno.
    apply range_entries_run in Hrun as (_ & e1 & Ht1 & _).
    rewrite (new_events_app _ _ _ Ht1) in Hno.
    destruct x as [[]|err|].
    + destruct (IH w1) as (e2 & Ht2 & Hno2).
      exists (e1 ++ e2)%list. rewrite Ht2, Ht1, app_assoc.
      split; [done | by apply Forall_app].
    + destruct (IH {| rp := rp w1; trace := trace w1 ++ [EvLogError err];
                      clock := clock w1 |}) as (e2 & Ht2 & Hno2).
      exists (e1 ++ EvLogError err :: e2)%list. rewrite Ht2. cbn. rewrite Ht1.
      split; [by rewrite <- !app_assoc|].
      apply Forall_app. split; [done | by constructor].
    + by exists e1.
  - exists []. by rewrite app_nil_r.
Qed.

(** X19: a [Run] with a positive interval makes one ticker, with that
    interval, before anything else, and stops it as the last thing it does
    when it is left; while it waits, the ticker is not stopped. *)
Theorem Run_makes_and_stops_one_ticker (wakes : list wake) (w : world) :
  0 < Interval (rp w) →
  ∃ evs,
    Forall (λ e, is_ticker e = false) evs
    ∧ trace (Run wakes w).2
      = (trace w ++ EvNewTicker (Interval (rp w)) :: evs ++
         match (Run wakes w).1 with
         | Blocked => []
         | _ => [EvTickStop]
         end)%list.
Proof.
  intros Hpos. unfold Run. rewrite decide_False by lia.
  destruct (Run_loop_no_ticker wakes
    {| rp := rp w; trace := trace w ++ [EvNewTicker (Interval (rp w))];
       clock := clock w |}) as (evs & Ht & Hno).
  exists evs. split; [done|].
  destruct (Run_loop wakes _) as [[] w']; cbn in *; rewrite Ht, <- !app_assoc;
    by rewrite ?app_nil_r.
Qed.

Lemma AddNames_cons (id : ID) (ids : list ID) (w : world) :
  AddNames (id :: ids) w = AddNames ids (AddName id w).2.
Proof. reflexivity. Qed.

(** X20: registering the identities of a list, one after the other, never
    fails and makes the watch set the old one with these identities added,
    in whatever order they come; each registration takes the lock and
    releases it, and nothing else is done. *)
Theorem AddNames_registers_all (ids ids' : list ID) (w : world) :
  (AddNames ids w).1 = Ok tt
  ∧ entries (rp (AddNames ids w).2) = list_to_set ids ∪ entries (rp w)
  ∧ new_events w (AddNames ids w).2 = flat_map (λ _, [EvLock; EvUnlock]) ids
  ∧ (ids ≡ₚ ids' →
     entries (rp (AddNames ids' w).2) = entries (rp (AddNames ids w).2)).
Proof.
  assert (Hall : ∀ (l : list ID) (w0 : world),
    (AddNames l w0).1 = Ok tt
    ∧ entries (rp (AddNames l w0).2) = list_to_set l ∪ entries (rp w0)
    ∧ trace (AddNames l w0).2
      = (trace w0 ++ flat_map (λ _, [EvLock; EvUnlock]) l)%list).
  { induction l as [|id l IH]; intros w0.
    - simpl. rewrite app_nil_r. split; [done|]. split; [set_solver | done].
    - rewrite (AddNames_cons id l w0).
      destruct (IH (AddName id w0).2) as (Hok & Hent & Htr).
      split; [done|]. rewrite Hent, Htr.
      unfold AddName, bind, emit, get_rp, set_rp. cbn.
      split; [set_solver | by rewrite <- !app_assoc]. }
  destruct (Hall ids w) as (Hok & Hent & Htr).
  split; [done|]. split; [done|]. split; [by apply new_events_app|].
  intros Hperm. destruct (Hall ids' w) as (_ & Hent' & _).
  rewrite Hent, Hent'. f_equal. apply set_eq. intros x.
  rewrite !elem_of_list_to_set. by rewrite Hperm.
Qed.

End RepublisherFacts.

(** * The properties on the concrete collaborators *)

Section Examples.
#[local] Existing Instance Toy.crypto.
#[local] Existing Instance Toy.os.
#[local] Existing Instance Toy.deps.
#[local] Existing Instance Toy.memkeys.
Import republisher keystore.

(** The scenario of the specification: ["QmX"] has a cached record with
    sequence number 3, ["QmY"] has none; one pass pushes one record, for
    ["QmX"], with sequence number 3 and an expiry 24 hours after the reading
    of the clock, and returns no error. *)
Example scenario_X_Y :
  (republishEntries ["QmX"; "QmY"] Toy.w_XY).1 = Ok tt
  ∧ r (rp (republishEntries ["QmX"; "QmY"] Toy.w_XY).2)
    = [("QmX", "/ipfs/abc", 3, 1000 + 24 * time.Hour)].
Proof. by vm_compute. Qed.

(** Two passes that both fail on the key of ["QmZ"], the first before and
    the second after the own identity ["QmX"]: each error is logged and none
    stops [Run]; the second pass has pushed the record of ["QmX"], and [Run]
    returns at the closing of the process. *)
Example Run_after_failed_pass :
  (Run [Tick ["QmZ"; "QmX"; "QmY"]; Tick ["QmX"; "QmZ"; "QmY"]; Closing]
     Toy.w_XYZ).1 = Returned
  ∧ r (rp (Run [Tick ["QmZ"; "QmX"; "QmY"]; Tick ["QmX"; "QmZ"; "QmY"]; Closing]
             Toy.w_XYZ).2)
    = [("QmX", "/ipfs/abc", 3, 1000 + 24 * time.Hour)]
  ∧ List.filter (λ e, match e with EvLogError _ => true | _ => false end)
      (trace (Run [Tick ["QmZ"; "QmX"; "QmY"]; Tick ["QmX"; "QmZ"; "QmY"]; Closing]
                Toy.w_XYZ).2)
    = [EvLogError ErrNoSuchKey; EvLogError ErrNoSuchKey].
Proof. by vm_compute. Qed.

(** The orders used with the worlds of the examples are orders of their
    watch sets. *)
Example orders_of_watch_sets :
  range_order Toy.w_XY ["QmX"; "QmY"] ∧ range_order Toy.w_XY ["QmY"; "QmX"]
  ∧ range_order Toy.w_XYZ ["QmX"; "QmZ"; "QmY"]
  ∧ range_order Toy.w_XYZ ["QmZ"; "QmX"; "QmY"].
Proof.
  unfold range_order. repeat split; apply NoDup_Permutation;
    try apply NoDup_elements; try (by vm_compute; repeat constructor; set_solver).
  all: intros x; rewrite elem_of_elements; unfold Toy.w_XY, Toy.w_XYZ, Toy.world_of,
    Toy.republisher_of; cbn; set_solver.
Qed.

(** [Get] on the directory with the files ["a"], ["c"] (unreadable) and
    ["b"]: a missing file is [ErrNoSuchKey], an input/output error is handed
    on as it is, and a name with a slash is refused before any call. *)
Example Get_on_store_acb :
  (FSKeystore_Get Toy.keys_dir "zz" Toy.store_acb).1 = Err ErrNoSuchKey
  ∧ (FSKeystore_Get Toy.keys_dir "c" Toy.store_acb).1
    = Err (Ext (ErrOS "read" "keys/c" EIO))
  ∧ (FSKeystore_Get Toy.keys_dir "a" Toy.store_acb).1 = Ok "A"
  ∧ FSKeystore_Get Toy.keys_dir "../a" Toy.store_acb
    = (Err (Errorf "key names may not contain slashes"), Toy.store_acb).
Proof. by vm_compute. Qed.

Lemma FSKeystore_NoSuchKey_and_validation_witness :
  illegal_name ".ssh"
  ∧ ∃ msg,
      FSKeystore_Get Toy.keys_dir ".ssh" Toy.store_acb = (Err (Errorf msg), Toy.store_acb)
      ∧ FSKeystore_Put Toy.keys_dir ".ssh" "K" Toy.store_acb
        = (Err (Errorf msg), Toy.store_acb)
      ∧ FSKeystore_Delete Toy.keys_dir ".ssh" Toy.store_acb
        = (Err (Errorf msg), Toy.store_acb).
Proof.
  assert (Hbad : illegal_name ".ssh") by (right; right; by exists "ssh").
  split; [exact Hbad|].
  exact (proj2 (FSKeystore_NoSuchKey_and_validation
                  Toy.keys_dir ".ssh" "K" Toy.store_acb) Hbad).
Defined.


Lemma key_failure_aborts_pass_witness :
  (republishEntries (["QmX"] ++ "QmZ" :: ["QmY"]) Toy.w_XYZ).1 = Err ErrNoSuchKey
  ∧ republishEntries (["QmX"] ++ "QmZ" :: ["QmY"]) Toy.w_XYZ
    = republishEntries (["QmX"] ++ ["QmZ"]) Toy.w_XYZ
  ∧ r (rp (republishEntries (["QmX"] ++ "QmZ" :: ["QmY"]) Toy.w_XYZ).2)
    = r (rp (republishEntries ["QmX"] Toy.w_XYZ).2)
  ∧ (new_events (republishEntries ["QmX"] Toy.w_XYZ).2
       (republishEntries (["QmX"] ++ "QmZ" :: ["QmY"]) Toy.w_XYZ).2
       = [EvDebugf "QmZ"]
     ∨ new_events (republishEntries ["QmX"] Toy.w_XYZ).2
         (republishEntries (["QmX"] ++ "QmZ" :: ["QmY"]) Toy.w_XYZ).2
       = [EvDebugf "QmZ"; EvGetById "QmZ"]).
Proof.
  apply (key_failure_aborts_pass ["QmX"] "QmZ" ["QmY"] Toy.w_XYZ ErrNoSuchKey).
  - vm_compute; reflexivity.
  - vm_compute. split; [discriminate | reflexivity].
Defined.

Lemma own_identity_skips_keystore_witness :
  EvGetById "QmX" ∉ new_events Toy.w_XY (republishEntries ["QmY"; "QmX"] Toy.w_XY).2
  ∧ (∀ priv p seq eol,
       EvPut priv p seq eol "QmX"
         ∈ new_events Toy.w_XY (republishEntries ["QmY"; "QmX"] Toy.w_XY).2 →
       priv = self (rp Toy.w_XY))
  ∧ (∀ id, EvGetById id
             ∈ new_events Toy.w_XY (republishEntries ["QmY"; "QmX"] Toy.w_XY).2 →
       id ≠ "QmX" ∧ id ∈ ["QmY"; "QmX"]).
Proof.
  apply (own_identity_skips_keystore ["QmY"; "QmX"] Toy.w_XY "QmX").
  vm_compute; reflexivity.
Defined.

(** C3, on a datastore whose [Get] fails with an input/output error:
    [getLastVal] reports [errNoEntry] as if there were no record, and the
    pass skips the identity and returns no error. *)
Theorem getLastVal_hides_datastore_error :
  ds_Get (dshelp_NewKeyFromBinary (list_byte_of_string "/ipns/QmX"))
    (ds (rp Toy.w_broken))
  = LErr (ErrLib "read /repo/datastore: input/output error")
  ∧ (getLastVal "/ipns/QmX" Toy.w_broken).1 = Err errNoEntry
  ∧ (republishEntries ["QmX"] Toy.w_broken).1 = Ok tt
  ∧ List.filter is_put
      (new_events Toy.w_broken (republishEntries ["QmX"] Toy.w_broken).2) = [].
Proof. by vm_compute. Qed.

(** C5 as it is worded does not hold for every configuration: with a record
    lifetime of zero the record pushed for ["QmX"] expires at the very reading
    of the clock, not later. *)
Lemma expiry_not_later_with_zero_lifetime :
  ¬ (∀ t eol,
       renewed_at (new_events Toy.w_zero (republishEntries ["QmX"] Toy.w_zero).2) t eol →
       t < eol).
Proof.
  intros Hlater. specialize (Hlater 1000 1000).
  assert (1000 < 1000) as Habs; [|lia].
  apply Hlater.
  exists [EvDebugf "QmX";
          EvDsGet (dshelp_NewKeyFromBinary (list_byte_of_string "/ipns/QmX"))],
    "X", "/ipfs/abc", 3, "QmX", [].
  by vm_compute.
Qed.

(** C6: a pass over the watch set {["QmY"]} during which another goroutine
    registers ["QmX"].  The schedule is one Go allows for the [range] over
    the live map, it is not a pass over a copy taken at the start, and in it
    the record of ["QmX"] is pushed within the same pass.  The only lock
    events are those of [AddName]: a pass takes no lock, whatever the
    order. *)
Theorem pass_ranges_over_live_map :
  range_live (entries (rp Toy.w_Y)) ∅ [Visit "QmY"; Register "QmX"; Visit "QmX"] = true
  ∧ range_snapshot (entries (rp Toy.w_Y)) ∅
      [Visit "QmY"; Register "QmX"; Visit "QmX"] = false
  ∧ (interleaved_pass [Visit "QmY"; Register "QmX"; Visit "QmX"] Toy.w_Y).1 = Ok tt
  ∧ List.filter (λ e, is_put e || is_lock e)
      (new_events Toy.w_Y
         (interleaved_pass [Visit "QmY"; Register "QmX"; Visit "QmX"] Toy.w_Y).2)
    = [EvLock; EvUnlock; EvPut "X" "/ipfs/abc" 3 (1000 + 24 * time.Hour) "QmX"]
  ∧ (∀ order,
       List.filter is_lock
         (new_events Toy.w_Y (republishEntries order Toy.w_Y).2) = []).
Proof.
  split; [by vm_compute|]. split; [by vm_compute|]. split; [by vm_compute|].
  split; [by vm_compute|].
  intros order.
  pose proof (republishEntries_takes_no_lock order Toy.w_Y) as Hlock.
  induction Hlock as [|e evs He _ IH]; [done|].
  simpl. by rewrite He.
Qed.

Lemma GetById_scans_past_errors_witness :
  listed Toy.keys_dir (fs Toy.store_acb) ["a"; "c"; "b"]
  ∧ (FSKeystore_GetById Toy.keys_dir "QmB" Toy.store_acb).1 = Ok "B"
  ∧ (FSKeystore_GetById Toy.keys_dir "QmZ" Toy.store_acb).1
    = Err (Ext (ErrOS "read" "keys/c" EIO)).
Proof.
  assert (Hl : listed Toy.keys_dir (fs Toy.store_acb) ["a"; "c"; "b"])
    by (split; reflexivity).
  split; [exact Hl|].
  destruct (GetById_scans_past_errors Toy.keys_dir "QmB" Toy.store_acb _ Hl)
    as [Hfirst _].
  destruct (GetById_scans_past_errors Toy.keys_dir "QmZ" Toy.store_acb _ Hl)
    as [_ Hnone].
  split.
  - apply (Hfirst ["a"; "c"] "b" []); [reflexivity | | reflexivity].
    intros m Hm [sk Hsk]. revert Hsk.
    apply elem_of_cons in Hm as [-> | Hm]; [by vm_compute|].
    apply list_elem_of_singleton in Hm as ->. by vm_compute.
  - assert (Hno : ∀ m, m ∈ ["a"; "c"; "b"] →
                    ¬ matches Toy.keys_dir (fs Toy.store_acb) "QmZ" m).
    { intros m Hm [sk Hsk]. revert Hsk.
      apply elem_of_cons in Hm as [-> | Hm]; [by vm_compute|].
      apply elem_of_cons in Hm as [-> | Hm]; [by vm_compute|].
      apply list_elem_of_singleton in Hm as ->. by vm_compute. }
    destruct (Hnone Hno) as [_ Hlast].
    apply (Hlast ["a"] "c" ["b"]); [reflexivity | reflexivity |].
    intros m Hm. apply list_elem_of_singleton in Hm as ->.
    by exists ("B", "QmB").
Defined.

(** ** The further properties on the concrete collaborators *)

Example more_orders_of_watch_sets :
  range_order (AddName "QmX" Toy.w_Y).2 ["QmX"; "QmY"]
  ∧ range_order Toy.w_garbled ["QmX"; "QmY"]
  ∧ range_order Toy.w_other ["QmX"; "QmY"].
Proof.
  unfold range_order. repeat split; apply NoDup_Permutation;
    try apply NoDup_elements; try (by vm_compute; repeat constructor; set_solver).
  all: intros x; rewrite elem_of_elements;
    unfold Toy.w_Y, Toy.w_garbled, Toy.w_other, Toy.world_of, Toy.republisher_of,
      AddName, bind, emit, get_rp, set_rp; cbn; set_solver.
Qed.

Lemma GetById_sound_witness :
  IDFromPrivateKey "B" = LOk "QmB"
  ∧ ∃ names name,
      listed Toy.keys_dir (fs Toy.store_acb) names ∧ name ∈ names
      ∧ (FSKeystore_Get Toy.keys_dir name Toy.store_acb).1 = Ok "B".
Proof.
  apply (GetById_sound (H:=Toy.crypto) Toy.keys_dir "QmB" Toy.store_acb "B").
  vm_compute; reflexivity.
Defined.

Lemma decode_error_aborts_pass_witness :
  (republishEntries ([] ++ "QmX" :: ["QmY"]) Toy.w_garbled).1
  = Err (Ext (ErrLib "proto: record: unexpected EOF"))
  ∧ republishEntries ([] ++ "QmX" :: ["QmY"]) Toy.w_garbled
    = republishEntries ([] ++ ["QmX"]) Toy.w_garbled
  ∧ r (rp (republishEntries ([] ++ "QmX" :: ["QmY"]) Toy.w_garbled).2)
    = r (rp (republishEntries [] Toy.w_garbled).2)
  ∧ List.filter is_put
      (new_events (republishEntries [] Toy.w_garbled).2
         (republishEntries ([] ++ "QmX" :: ["QmY"]) Toy.w_garbled).2) = [].
Proof.
  apply (decode_error_aborts_pass (H:=Toy.crypto) [] "QmX" ["QmY"] Toy.w_garbled "X" []).
  - reflexivity.
  - vm_compute; reflexivity.
  - vm_compute; reflexivity.
  - left. reflexivity.
Defined.

Lemma missing_record_is_skipped_witness :
  (republishEntries (["QmX"] ++ ["QmY"]) Toy.w_XY).1 = Ok tt
  ∧ r (rp (republishEntries (["QmX"] ++ ["QmY"]) Toy.w_XY).2)
    = r (rp (republishEntries ["QmX"] Toy.w_XY).2)
  ∧ List.filter is_put
      (new_events (republishEntries ["QmX"] Toy.w_XY).2
         (republishEntries (["QmX"] ++ ["QmY"]) Toy.w_XY).2) = []
  ∧ republishEntries (["QmX"] ++ "QmY" :: []) Toy.w_XY
    = republishEntries [] (republishEntries (["QmX"] ++ ["QmY"]) Toy.w_XY).2.
Proof.
  apply (missing_record_is_skipped (H:=Toy.crypto) ["QmX"] "QmY" [] Toy.w_XY "Y"
           (ErrLib "datastore: key not found")).
  - vm_compute; reflexivity.
  - vm_compute; reflexivity.
  - vm_compute; reflexivity.
Defined.

Lemma stored_value_of_other_type_panics_witness :
  (republishEntries ([] ++ "QmX" :: ["QmY"]) Toy.w_other).1 = Panic
  ∧ List.filter is_put
      (new_events (republishEntries [] Toy.w_other).2
         (republishEntries ([] ++ "QmX" :: ["QmY"]) Toy.w_other).2) = []
  ∧ (Run_loop (Tick ([] ++ "QmX" :: ["QmY"]) :: [Closing]) Toy.w_other).1 = Crashed.
Proof.
  apply (stored_value_of_other_type_panics (H:=Toy.crypto) [] "QmX" ["QmY"] Toy.w_other "X" "string").
  - reflexivity.
  - vm_compute; reflexivity.
  - vm_compute; reflexivity.
Defined.

Lemma successful_pass_renews_exactly_cached_witness :
  (∃ priv p S eol,
     EvPut priv p S eol "QmX"
       ∈ new_events Toy.w_XY (republishEntries ["QmX"; "QmY"] Toy.w_XY).2)
  ↔ "QmX" ∈ entries (rp Toy.w_XY) ∧ ∃ p S, cached Toy.w_XY "QmX" p S.
Proof.
  apply (successful_pass_renews_exactly_cached ["QmX"; "QmY"] Toy.w_XY "QmX").
  - apply orders_of_watch_sets.
  - vm_compute; reflexivity.
Defined.

Lemma one_push_per_identity_witness :
  (length (List.filter (is_put_for "QmX")
             (new_events Toy.w_XY (republishEntries ["QmX"; "QmY"] Toy.w_XY).2))
   ≤ 1)%nat
  ∧ (length (List.filter is_put
               (new_events Toy.w_XY (republishEntries ["QmX"; "QmY"] Toy.w_XY).2))
     ≤ size (entries (rp Toy.w_XY)))%nat.
Proof.
  apply (one_push_per_identity ["QmX"; "QmY"] Toy.w_XY "QmX").
  apply orders_of_watch_sets.
Defined.

Lemma registered_identity_is_renewed_witness :
  ∃ priv eol,
    EvPut priv "/ipfs/abc" 3 eol "QmX"
      ∈ new_events (AddName "QmX" Toy.w_Y).2
          (republishEntries ["QmX"; "QmY"] (AddName "QmX" Toy.w_Y).2).2.
Proof.
  apply (registered_identity_is_renewed "QmX" Toy.w_Y ["QmX"; "QmY"] "/ipfs/abc" 3).
  - vm_compute; reflexivity.
  - apply more_orders_of_watch_sets.
  - vm_compute; reflexivity.
Defined.

Lemma pass_of_new_republisher_does_nothing_witness :
  republishEntries [] Toy.w_new = (Ok tt, Toy.w_new).
Proof.
  unfold Toy.w_new.
  apply (pass_of_new_republisher_does_nothing (H:=Toy.crypto) (H0:=Toy.deps)).
  unfold range_order. simpl. rewrite elements_empty. constructor.
Defined.

Lemma Run_makes_and_stops_one_ticker_witness :
  ∃ evs,
    Forall (λ e, is_ticker e = false) evs
    ∧ trace (Run [Tick ["QmX"; "QmY"]; Closing] Toy.w_XY).2
      = (trace Toy.w_XY ++ EvNewTicker (Interval (rp Toy.w_XY)) :: evs ++
         match (Run [Tick ["QmX"; "QmY"]; Closing] Toy.w_XY).1 with
         | Blocked => []
         | _ => [EvTickStop]
         end)%list.
Proof.
  apply (Run_makes_and_stops_one_ticker [Tick ["QmX"; "QmY"]; Closing] Toy.w_XY).
  vm_compute; reflexivity.
Defined.

End Examples.

(** * The properties with a routing store that cannot be reached *)

Section ExamplesOffline.
#[local] Existing Instance Toy.crypto.
#[local] Existing Instance Toy.deps_offline.
#[local] Existing Instance Toy.memkeys.
Import republisher.

Lemma push_failure_aborts_pass_witness :
  (republishEntries ([] ++ "QmX" :: ["QmY"]) Toy.w_offline).1
  = Err (Ext (ErrLib "routing: network is unreachable"))
  ∧ republishEntries ([] ++ "QmX" :: ["QmY"]) Toy.w_offline
    = republishEntries ([] ++ ["QmX"]) Toy.w_offline
  ∧ List.filter is_put
      (new_events (republishEntries [] Toy.w_offline).2
         (republishEntries ([] ++ "QmX" :: ["QmY"]) Toy.w_offline).2)
    = [EvPut "X" "/ipfs/abc" 3
         (time.Add (time_Now (clock (republishEntries [] Toy.w_offline).2))
            (RecordLifetime (rp (republishEntries [] Toy.w_offline).2))) "QmX"]
  ∧ last (new_events (republishEntries [] Toy.w_offline).2
            (republishEntries ([] ++ "QmX" :: ["QmY"]) Toy.w_offline).2)
    = Some (EvPrintln (Ext (ErrLib "routing: network is unreachable"))).
Proof.
  apply (push_failure_aborts_pass (H:=Toy.crypto) (H0:=Toy.deps_offline)
           [] "QmX" ["QmY"] Toy.w_offline).
  - reflexivity.
  - vm_compute; reflexivity.
  - vm_compute; reflexivity.
  - vm_compute; reflexivity.
Defined.

End ExamplesOffline.

(** * The properties of the key store on a file system in memory *)

Section ExamplesMemfs.
#[local] Existing Instance Toy.crypto.
#[local] Existing Instance Toy.memfs.
Import keystore.

Lemma mem_find_remove (n : string) (f : list (string * bytes)) :
  Toy.mem_find n (Toy.mem_remove n f) = None.
Proof.
  induction f as [|[n' c] f IH]; [done|]. simpl.
  case_decide as Hn; [done|]. simpl. by rewrite decide_False.
Qed.

Lemma memfs_written_file_reads_back : written_file_reads_back.
Proof.
  intros p b f f1 f2. simpl. unfold Toy.mem_lookup.
  destruct (Toy.name_of p) as [n|] eqn:Hn; [|done].
  intros [= <-]. simpl. rewrite decide_True by done.
  intros [= <-]. simpl. by rewrite decide_True.
Qed.

Lemma memfs_removed_file_is_gone : removed_file_is_gone.
Proof.
  intros p f f'. simpl. unfold Toy.mem_lookup.
  destruct (Toy.name_of p) as [n|] eqn:Hn; [|done].
  destruct (Toy.mem_find n f); [|done].
  intros [= <-]. rewrite mem_find_remove.
  split; eexists; (split; reflexivity).
Qed.

Lemma toy_key_decodes : key_decodes "B".
Proof. intros b [= <-]. reflexivity. Qed.

Lemma Put_writes_and_closes_witness :
  FSKeystore_Put Toy.keys_dir "b" "B" Toy.store_mem
  = (lift (file_Write (filepath_Join (dir Toy.keys_dir) "b") (list_byte_of_string "B")
             [("b", []); ("a", list_byte_of_string "A")]).1,
     {| fs := file_Close (filepath_Join (dir Toy.keys_dir) "b")
                (file_Write (filepath_Join (dir Toy.keys_dir) "b")
                   (list_byte_of_string "B")
                   [("b", []); ("a", list_byte_of_string "A")]).2;
        calls := calls Toy.store_mem ++
                 [SysStat (filepath_Join (dir Toy.keys_dir) "b");
                  SysCreate (filepath_Join (dir Toy.keys_dir) "b");
                  SysWrite (filepath_Join (dir Toy.keys_dir) "b")
                    (list_byte_of_string "B");
                  SysClose (filepath_Join (dir Toy.keys_dir) "b")] |}).
Proof.
  apply (Put_writes_and_closes (H:=Toy.crypto) (H0:=Toy.memfs) Toy.keys_dir "b" "B"
           Toy.store_mem (list_byte_of_string "B") (ErrOS "stat" "keys/b" ENOENT)).
  - apply validateName_legal. reflexivity.
  - reflexivity.
  - reflexivity.
  - reflexivity.
  - reflexivity.
Defined.

Lemma Put_then_Get_witness :
  (FSKeystore_Get Toy.keys_dir "b"
     (FSKeystore_Put Toy.keys_dir "b" "B" Toy.store_mem).2).1 = Ok "B".
Proof.
  apply (Put_then_Get (H:=Toy.crypto) (H0:=Toy.memfs)).
  - exact memfs_written_file_reads_back.
  - exact toy_key_decodes.
  - vm_compute; reflexivity.
Defined.

Lemma Put_then_Has_and_Put_witness :
  (FSKeystore_Has Toy.keys_dir "b"
     (FSKeystore_Put Toy.keys_dir "b" "B" Toy.store_mem).2).1 = Ok true
  ∧ (FSKeystore_Put Toy.keys_dir "b" "C"
       (FSKeystore_Put Toy.keys_dir "b" "B" Toy.store_mem).2).1 = Err ErrKeyExists
  ∧ fs (FSKeystore_Put Toy.keys_dir "b" "C"
          (FSKeystore_Put Toy.keys_dir "b" "B" Toy.store_mem).2).2
    = fs (FSKeystore_Put Toy.keys_dir "b" "B" Toy.store_mem).2.
Proof.
  apply (Put_then_Has_and_Put (H:=Toy.crypto) (H0:=Toy.memfs)
           Toy.keys_dir "b" "B" "C" (list_byte_of_string "C")).
  - exact memfs_written_file_reads_back.
  - vm_compute; reflexivity.
  - reflexivity.
Defined.

Lemma Delete_then_Get_witness :
  (FSKeystore_Get Toy.keys_dir "a"
     (FSKeystore_Delete Toy.keys_dir "a" Toy.store_mem).2).1 = Err ErrNoSuchKey
  ∧ (FSKeystore_Has Toy.keys_dir "a"
       (FSKeystore_Delete Toy.keys_dir "a" Toy.store_mem).2).1 = Ok false.
Proof.
  apply (Delete_then_Get (H:=Toy.crypto) (H0:=Toy.memfs)).
  - exact memfs_removed_file_is_gone.
  - vm_compute; reflexivity.
Defined.

End ExamplesMemfs.
